(** * pdfComplete web client: field deduplication and the selection-keyed cache

    A shallow embedding of

    - [webapp/src/lib/dedupeFields.ts]   ([normalizeName], [mergeOccurrences],
      [dedupeFields]), and
    - [webapp/src/stores/useFormStore.ts] ([selectionSignature],
      [setSelectedPdfs], [fetchCombinedFields], [reset], [loadPdfs],
      [updateFieldValue]), and
    - [webapp/src/components/LibraryList.tsx] (the filtered list and the
      selection handlers),

    followed by the properties of these units.

    Modelling conventions.

    - A JavaScript string is a [string]: a sequence of code units, here
      restricted to the range 0..255 (Latin-1).  [trim] and [toLowerCase]
      follow ECMAScript on that range.
    - A [number] used as an occurrence count is an IEEE 754 double with an
      integral value, or one of the infinities or NaN that sums of such
      doubles can reach; [+] rounds to the nearest double, ties to even.
      Fractions and the negative zero are left out.
    - A plain object used as a map ([Record<PdfName, number>],
      [Record<string, FieldDef[]>]) is the finite map ([gmap]) of its own
      properties; a read [obj[key]] that finds no own property finds the
      member inherited from [Object.prototype] when [key] is the name of
      one, and an assignment to [__proto__] goes to the inherited setter.
    - A string that [+] builds from such a member is kept as the sequence
      of what was concatenated, not as its characters.
    - [Map<string, FieldDef>] iterates in insertion order and [Map.set] on a
      present key keeps the key's position: an association list.
    - [Set<string>] iterates in insertion order: a duplicate-free list.
    - An optional property ([required?], [options?], [occurrences?]) is an
      [option]; [None] stands for both an absent property and [undefined].
    - [String.prototype.localeCompare] depends on the host's collation: it
      is a parameter of the store, known by the sign of its result, and
      nothing is assumed of it; it may compare two distinct strings as
      equal.  [Array.prototype.sort] is the stable sort by it.
    - The external service is a parameter too: a function that tells how
      the [n]-th request settles.  Store actions act on the store together
      with the log of the requests sent.  Called one after the other and
      awaited, they run to completion ([run], [runOps]); called from the
      handlers of the library list, which do not await them, they run up
      to their [await] and the rest runs when the answer comes, other
      events in between ([runUis]). *)

From Stdlib Require Import ZArith Ascii String List Permutation Sorted OrdersEx.
From stdpp Require Import gmap strings list fin_maps.

Local Open Scope Z_scope.

(** ** JavaScript strings *)

Module JsString.

(** ECMAScript [WhiteSpace] and [LineTerminator] code points below 256:
    TAB, LF, VT, FF, CR, SP and NBSP. *)
Definition isWhiteSpace (c : ascii) : bool :=
  match c with
  | "009" | "010" | "011" | "012" | "013" | " " | "160" => true
  | _ => false
  end%char.

Fixpoint trimStart (s : string) : string :=
  match s with
  | EmptyString => EmptyString
  | String c s' => if isWhiteSpace c then trimStart s' else s
  end.

Fixpoint trimEnd (s : string) : string :=
  match s with
  | EmptyString => EmptyString
  | String c s' =>
      match trimEnd s' with
      | EmptyString => if isWhiteSpace c then EmptyString else String c EmptyString
      | t => String c t
      end
  end.

(** A string of white space only. *)
Fixpoint isBlank (s : string) : bool :=
  match s with
  | EmptyString => true
  | String c s' => isWhiteSpace c && isBlank s'
  end.

(** [String.prototype.trim] *)
Definition trim (s : string) : string := trimEnd (trimStart s).

(** Simple lower-case mapping of one code unit: A-Z and the Latin-1
    capitals U+00C0..U+00DE (without the multiplication sign U+00D7). *)
Definition lowerChar (c : ascii) : ascii :=
  let n := N_of_ascii c in
  if ((65 <=? n) && (n <=? 90)
      || (192 <=? n) && (n <=? 222) && negb (n =? 215))%N
  then ascii_of_N (n + 32) else c.

(** [String.prototype.toLowerCase] *)
Fixpoint toLowerCase (s : string) : string :=
  match s with
  | EmptyString => EmptyString
  | String c s' => String (lowerChar c) (toLowerCase s')
  end.

(** [Array.prototype.join] on an array of strings *)
Fixpoint join (sep : string) (l : list string) : string :=
  match l with
  | [] => EmptyString
  | [x] => x
  | x :: l' => x +:+ sep +:+ join sep l'
  end.

End JsString.

(** ** JavaScript numbers, and what [+] makes of them *)

Module JsNumber.

(** The numbers an occurrence count can be. *)
Inductive t :=
| Fin (z : Z)
| PosInf
| NegInf
| NaN.

(** The double nearest to an integer, ties to the even significand: up to
    2^53 every integer is a double; beyond, the 53 leading bits are kept;
    from 2^1024 on the result is an infinity. *)
Definition round (z : Z) : t :=
  let a := Z.abs z in
  if a <=? 2 ^ 53 then Fin z
  else
    let e := Z.log2 a - 52 in
    let q := a / 2 ^ e in
    let r := a mod 2 ^ e in
    let half := 2 ^ (e - 1) in
    let q :=
      if r <? half then q
      else if half <? r then q + 1
      else if Z.even q then q else q + 1 in
    let m := q * 2 ^ e in
    if 2 ^ 1024 <=? m then (if 0 <? z then PosInf else NegInf)
    else Fin (Z.sgn z * m).

(** [x + y] on numbers *)
Definition add (x y : t) : t :=
  match x, y with
  | NaN, _ | _, NaN => NaN
  | PosInf, NegInf | NegInf, PosInf => NaN
  | PosInf, _ | _, PosInf => PosInf
  | NegInf, _ | _, NegInf => NegInf
  | Fin a, Fin b => round (a + b)
  end.

End JsNumber.

Module JsValue.

(** One operand's share of a string built by [+]: the text of a member
    inherited from [Object.prototype] (a function's source text, or
    [[object Object]] for [__proto__]), or the decimal text of a number. *)
Inductive Piece :=
| MemberText (key : string)
| NumberText (n : JsNumber.t).

(** What an occurrences object holds under a document id: by its declared
    type a number; a string where [+] met an inherited member. *)
Inductive t :=
| Num (n : JsNumber.t)
| Str (pieces : list Piece).

(** The number 0. *)
Definition zero : t := Num (JsNumber.Fin 0).

(** [ToString] of an operand of a concatenation. *)
Definition text (v : t) : list Piece :=
  match v with
  | Num n => [NumberText n]
  | Str pieces => pieces
  end.

(** [a + b]: addition of two numbers, else concatenation. *)
Definition plus (a b : t) : t :=
  match a, b with
  | Num x, Num y => Num (JsNumber.add x y)
  | _, _ => Str (text a ++ text b)
  end.

End JsValue.

(** The names of the members every plain object inherits from
    [Object.prototype] (ECMAScript, Annex B included).  Each member is an
    object, so a read that finds one is neither nullish nor falsy. *)
Definition objectPrototypeKeys : list string :=
  [ "constructor"; "hasOwnProperty"; "isPrototypeOf"; "propertyIsEnumerable";
    "toLocaleString"; "toString"; "valueOf"; "__proto__";
    "__defineGetter__"; "__defineSetter__"; "__lookupGetter__"; "__lookupSetter__" ].

(** ** Data model ([types/api]) *)

(** [PdfName] is [string]. *)

Inductive FieldKind := text | number | checkbox | radio | date.

Record FieldDef := mkFieldDef {
  name : string;
  kind : FieldKind;
  required : option bool;
  options : option (list string);
  (** Map of PDF filename to number of occurrences for this field *)
  occurrences : option (gmap string JsValue.t)
}.

Record CombinedFieldsResponse := mkResponse {
  fields : list FieldDef;
  notes : option (list string)
}.

Global Instance JsNumber_eq_dec : EqDecision JsNumber.t.
Proof. solve_decision. Defined.

Global Instance Piece_eq_dec : EqDecision JsValue.Piece.
Proof. solve_decision. Defined.

Global Instance JsValue_eq_dec : EqDecision JsValue.t.
Proof. solve_decision. Defined.

Global Instance FieldKind_eq_dec : EqDecision FieldKind.
Proof. solve_decision. Defined.

Global Instance FieldDef_eq_dec : EqDecision FieldDef.
Proof. solve_decision. Defined.

(** ** Insertion-ordered [Set<string>] and [Map<string, FieldDef>] *)

Module JsSet.

(** [Set.prototype.add]: a value already present keeps its place. *)
Definition add (s : list string) (x : string) : list string :=
  if decide (x ∈ s) then s else s ++ [x].

(** [new Set(iterable)], read back with spread or [Array.from]. *)
Definition of_list (l : list string) : list string := foldl add [] l.

End JsSet.

Module JsMap.

Definition t := list (string * FieldDef).

Definition empty : t := [].

Fixpoint get (m : t) (k : string) : option FieldDef :=
  match m with
  | [] => None
  | (k', v) :: m' => if decide (k' = k) then Some v else get m' k
  end.

Fixpoint set (m : t) (k : string) (v : FieldDef) : t :=
  match m with
  | [] => [(k, v)]
  | (k', v') :: m' =>
      if decide (k' = k) then (k', v) :: m' else (k', v') :: set m' k v
  end.

Definition keys (m : t) : list string := m.*1.

Definition values (m : t) : list FieldDef := m.*2.

End JsMap.

(** ** The deduplicator ([lib/dedupeFields.ts]) *)

Definition normalizeName (name : string) : string :=
  JsString.toLowerCase (JsString.trim name).

(** [out[pdf] ?? 0] as the left operand of [+]: the own property; else,
    under a name of [Object.prototype], the inherited member, which [+]
    turns into its text; else 0. *)
Definition currentOrZero (out : gmap string JsValue.t) (pdf : string) : JsValue.t :=
  match out !! pdf with
  | Some v => v
  | None =>
      if bool_decide (pdf ∈ objectPrototypeKeys)
      then JsValue.Str [JsValue.MemberText pdf]
      else JsValue.zero
  end.

(** [out[pdf] = v]: an own property is written or created, except that
    [__proto__], while not an own property, is the inherited setter, which
    ignores a value that is neither an object nor null. *)
Definition assign (out : gmap string JsValue.t) (pdf : string) (v : JsValue.t)
  : gmap string JsValue.t :=
  match out !! pdf with
  | Some _ => <[pdf := v]> out
  | None => if bool_decide (pdf = "__proto__") then out else <[pdf := v]> out
  end.

(** One [for (const [pdf, count] of Object.entries(src))] loop of
    [mergeOccurrences]: [out[pdf] = (out[pdf] ?? 0) + (count ?? 0)], where
    [count], an own value of [src], is never nullish. *)
Definition addEntries (src out : gmap string JsValue.t) : gmap string JsValue.t :=
  map_fold (λ pdf count out, assign out pdf (JsValue.plus (currentOrZero out pdf) count))
           out src.

Definition mergeOccurrences (a b : option (gmap string JsValue.t))
  : option (gmap string JsValue.t) :=
  match a, b with
  | None, None => None
  | _, _ =>
      let out : gmap string JsValue.t := ∅ in
      let out := match a with Some a => addEntries a out | None => out end in
      let out := match b with Some b => addEntries b out | None => out end in
      Some out
  end.

(** First occurrence of a key: the shallow clone
    [{ ...f, options: f.options ? [...new Set(f.options)] : undefined,
       occurrences: f.occurrences ? { ...f.occurrences } : undefined }]. *)
Definition cloneField (f : FieldDef) : FieldDef :=
  {| name := name f;
     kind := kind f;
     required := required f;
     options := match options f with
                | Some o => Some (JsSet.of_list o)
                | None => None
                end;
     occurrences := match occurrences f with
                    | Some occ => Some occ
                    | None => None
                    end |}.

(** Later occurrence of a key: [merged] as built in the loop body. *)
Definition mergeField (existing f : FieldDef) : FieldDef :=
  let merged :=
    {| name := name existing;
       kind := kind existing;
       required := required existing;
       options := options existing;
       occurrences := mergeOccurrences (occurrences existing) (occurrences f) |} in
  let merged :=
    if bool_decide (is_Some (options existing)) || bool_decide (is_Some (options f))
    then {| name := name merged; kind := kind merged; required := required merged;
            options := Some (JsSet.of_list
                               (default [] (options existing) ++ default [] (options f)));
            occurrences := occurrences merged |}
    else merged in
  match required f with
  | Some true =>
      {| name := name merged; kind := kind merged; required := Some true;
         options := options merged; occurrences := occurrences merged |}
  | _ => merged
  end.

(** The body of [for (const f of fields)]. *)
Definition dedupeStep (map : JsMap.t) (f : FieldDef) : JsMap.t :=
  let key := normalizeName (name f) in
  match JsMap.get map key with
  | None => JsMap.set map key (cloneField f)
  | Some existing => JsMap.set map key (mergeField existing f)
  end.

Definition dedupeFields (fields : list FieldDef) : list FieldDef :=
  JsMap.values (foldl dedupeStep JsMap.empty fields).

(** ** The selection store ([stores/useFormStore.ts]) *)

(** [ApiError] of [api/api.ts]. *)
Record ApiError := mkApiError {
  message : string;
  status : Z;
  url : string
}.

(** The settled promise of one [getCombinedFields] request: rejected with
    an [ApiError] or resolved with a response. *)
Definition ServiceResult := (ApiError + CombinedFieldsResponse)%type.

(** What [combinedFields] holds: by its declared type a list of fields;
    the member of [Object.prototype] that a read of the cache found under
    the signature, where it found one. *)
Inductive CombinedFields :=
| Fields (l : list FieldDef)
| InheritedMember (key : string).

(** The data and busy flags of [FormStoreState] (the actions are the
    definitions below).  [fieldValues] holds form inputs, kept as strings. *)
Record FormStoreState := mkState {
  allPdfs : list string;
  selectedPdfs : list string;
  combinedFields : CombinedFields;
  fieldValues : gmap string string;
  schemaVersion : option string;
  isLoadingPdfs : bool;
  isLoadingFields : bool;
  isFilling : bool;
  (** Cache: signature => combinedFields *)
  fieldsCache : gmap string (list FieldDef)
}.

(** The partial updates [set({ ... })] used by the actions. *)
Definition with_selectedPdfs (v : list string) (s : FormStoreState) : FormStoreState :=
  mkState (allPdfs s) v (combinedFields s) (fieldValues s) (schemaVersion s)
          (isLoadingPdfs s) (isLoadingFields s) (isFilling s) (fieldsCache s).

Definition with_combinedFields (v : CombinedFields) (s : FormStoreState) : FormStoreState :=
  mkState (allPdfs s) (selectedPdfs s) v (fieldValues s) (schemaVersion s)
          (isLoadingPdfs s) (isLoadingFields s) (isFilling s) (fieldsCache s).

Definition with_isLoadingFields (v : bool) (s : FormStoreState) : FormStoreState :=
  mkState (allPdfs s) (selectedPdfs s) (combinedFields s) (fieldValues s) (schemaVersion s)
          (isLoadingPdfs s) v (isFilling s) (fieldsCache s).

Definition with_fieldsCache (v : gmap string (list FieldDef)) (s : FormStoreState)
  : FormStoreState :=
  mkState (allPdfs s) (selectedPdfs s) (combinedFields s) (fieldValues s) (schemaVersion s)
          (isLoadingPdfs s) (isLoadingFields s) (isFilling s) v.

(** The state the store is created with, and that [reset] restores. *)
Definition initialState : FormStoreState :=
  {| allPdfs := [];
     selectedPdfs := [];
     combinedFields := Fields [];
     fieldValues := ∅;
     schemaVersion := None;
     isLoadingPdfs := false;
     isLoadingFields := false;
     isFilling := false;
     fieldsCache := ∅ |}.

(** What an action runs in: the store, and the log of the requests sent
    to the external service so far, each with how it settled. *)
Record World := mkWorld {
  store : FormStoreState;
  calls : list (list string * ServiceResult)
}.

(** How an [async] action completes: normally, or by throwing. *)
Inductive Completion (A : Type) :=
| Normal (a : A)
| Throw (e : ApiError).
Arguments Normal {A} a.
Arguments Throw {A} e.

(** Sequential execution of store actions. *)
Definition Action (A : Type) : Type := World → Completion A * World.

Global Instance Action_ret : MRet Action := λ A a w, (Normal a, w).

Global Instance Action_bind : MBind Action := λ A B k m w,
  match m w with
  | (Normal a, w') => k a w'
  | (Throw e, w') => (Throw e, w')
  end.

(** [try { body } finally { fin }] *)
Definition try_finally {A} (body : Action A) (fin : Action unit) : Action A := λ w,
  match body w with
  | (c, w') =>
      match fin w' with
      | (Normal _, w'') => (c, w'')
      | (Throw e, w'') => (Throw e, w'')
      end
  end.

(** [cache[sig]] on the plain object [cache]: the own property; else,
    under a name of [Object.prototype], the inherited member; else
    [undefined].  Whatever is found is truthy. *)
Definition readCache (cache : gmap string (list FieldDef)) (sig : string)
  : option CombinedFields :=
  match cache !! sig with
  | Some cached => Some (Fields cached)
  | None =>
      if bool_decide (sig ∈ objectPrototypeKeys) then Some (InheritedMember sig) else None
  end.

Module Zustand.

(** [get()] *)
Definition get : Action FormStoreState := λ w, (Normal (store w), w).

(** [set(partial)] and [set((state) => partial)] *)
Definition set (f : FormStoreState → FormStoreState) : Action unit := λ w,
(Normal tt, mkWorld (f (store w)) (calls w)).

End Zustand.

Section Store.

(** [String.prototype.localeCompare], by the sign of its result. *)
Variable localeCompare : string → string → comparison.

(** The external service: how the [n]-th request (counted from 0 over
    the life of the page) for the given document ids settles. *)
Variable service : nat → list string → ServiceResult.

(** [Array.prototype.sort(compareFn)]: the stable sort. *)
Fixpoint sortInsert (x : string) (l : list string) : list string :=
  match l with
  | [] => [x]
  | y :: l' =>
      match localeCompare x y with
      | Gt => y :: sortInsert x l'
      | _ => x :: l
      end
  end.

Definition sort (l : list string) : list string := foldr sortInsert [] l.

(** Order-independent signature for caching *)
Definition selectionSignature (pdfs : list string) : string :=
  JsString.join "||" (sort pdfs).

(** [await getCombinedFields(pdfs)] *)
Definition getCombinedFields (pdfs : list string) : Action CombinedFieldsResponse := λ w,
  let settled := service (length (calls w)) pdfs in
  let w' := mkWorld (store w) (calls w ++ [(pdfs, settled)]) in
  match settled with
  | inl e => (Throw e, w')
  | inr res => (Normal res, w')
  end.

Definition fetchCombinedFields : Action unit :=
  s ← Zustand.get;
  let pdfs := selectedPdfs s in
  let sig := selectionSignature pdfs in
  (* Serve from cache if available *)
  s ← Zustand.get;
  match readCache (fieldsCache s) sig with
  | Some cached => Zustand.set (with_combinedFields cached)
  | None =>
      if (length pdfs =? 0)%nat then Zustand.set (with_combinedFields (Fields []))
      else
        Zustand.set (with_isLoadingFields true);;
        try_finally
          (res ← getCombinedFields pdfs;
           let deduped := dedupeFields (fields res) in
           Zustand.set (λ state,
             with_fieldsCache (<[sig := deduped]> (fieldsCache state))
               (with_combinedFields (Fields deduped) state)))
          (Zustand.set (with_isLoadingFields false))
  end.

Definition setSelectedPdfs (pdfs : list string) : Action unit :=
  Zustand.set (with_selectedPdfs pdfs);;
  fetchCombinedFields.

Definition reset : Action unit :=
  Zustand.set (λ _,
    {| allPdfs := [];
       selectedPdfs := [];
       combinedFields := Fields [];
       fieldValues := ∅;
       schemaVersion := None;
       isLoadingPdfs := false;
       isLoadingFields := false;
       isFilling := false;
       fieldsCache := ∅ |}).

(** Sequential use of the store: each call is awaited, so it runs to
    completion before the next starts; a call that throws leaves the
    store as it is then. *)
Inductive Call :=
| CallSetSelectedPdfs (pdfs : list string)
| CallFetchCombinedFields
| CallReset.

Definition runCall (c : Call) : Action unit :=
  match c with
  | CallSetSelectedPdfs pdfs => setSelectedPdfs pdfs
  | CallFetchCombinedFields => fetchCombinedFields
  | CallReset => reset
  end.

Definition run (cs : list Call) (w : World) : World :=
  foldl (λ w c, (runCall c w).2) w cs.

End Store.

Definition initialWorld : World := mkWorld initialState [].

Definition isReset (c : Call) : bool :=
  match c with CallReset => true | _ => false end.

(** Code-unit order on strings, one admissible [localeCompare]. *)
Definition codeUnitCompare : string → string → comparison := String_as_OT.compare.

(** ** Specification vocabulary *)

(** The distinct elements of a list in order of first occurrence. *)
Fixpoint firstSeen (l : list string) : list string :=
  match l with
  | [] => []
  | x :: l' => x :: filter (λ y, y ≠ x) (firstSeen l')
  end.

(** A list without its longest prefix of elements that satisfy [p]. *)
Fixpoint dropWhile {A} (p : A → bool) (l : list A) : list A :=
  match l with
  | [] => []
  | x :: l' => if p x then dropWhile p l' else l
  end.

(** A name as the specification compares names: without the white space
    at its two ends, in lower case.  It is written on the sequence of the
    name's characters and owes nothing to [normalizeName]. *)
Definition trimmedLowercase (s : string) : string :=
  let chars := list_ascii_of_string s in
  let chars := dropWhile JsString.isWhiteSpace chars in
  let chars := rev (dropWhile JsString.isWhiteSpace (rev chars)) in
  string_of_list_ascii (JsString.lowerChar <$> chars).

(** The descriptors of the input whose names the specification matches
    with the name of [e], in input order. *)
Definition contributors (e : FieldDef) (fs : list FieldDef) : list FieldDef :=
  filter (λ f, trimmedLowercase (name f) = trimmedLowercase (name e)) fs.

(** The merge key of a descriptor. *)
Definition keyOf (f : FieldDef) : string := normalizeName (name f).

(** The descriptors of the input that contribute to the entry with key [k],
    in input order. *)
Definition group (k : string) (fs : list FieldDef) : list FieldDef :=
  filter (λ f, keyOf f = k) fs.

(** What the loop has stored for a key after it has seen the descriptors
    [g] of that key. *)
Definition mergeGroup (g : list FieldDef) : option FieldDef :=
  match g with
  | [] => None
  | f :: rest => Some (foldl mergeField (cloneField f) rest)
  end.

(** What an occurrences object, if there is one, holds under [pdf] as
    its own property. *)
Definition lookupIn (o : option (gmap string JsValue.t)) (pdf : string)
  : option JsValue.t :=
  match o with
  | Some m => m !! pdf
  | None => None
  end.

(** What a descriptor's occurrences hold under [pdf]. *)
Definition valueIn (pdf : string) (f : FieldDef) : option JsValue.t :=
  lookupIn (occurrences f) pdf.

(** The count of [pdf] in a descriptor, an absent count being 0. *)
Definition countIn (pdf : string) (f : FieldDef) : Z :=
  match valueIn pdf f with
  | Some (JsValue.Num (JsNumber.Fin z)) => z
  | _ => 0
  end.

(** The count of [pdf] in a descriptor, if it has one, is a finite number,
    as the descriptor's type says. *)
Definition finiteIn (pdf : string) (f : FieldDef) : Prop :=
  ∀ v, valueIn pdf f = Some v → ∃ z, v = JsValue.Num (JsNumber.Fin z).

(** [pdf] is a key of the descriptor's occurrences. *)
Definition mentions (pdf : string) (f : FieldDef) : Prop :=
  ∃ m, occurrences f = Some m ∧ is_Some (m !! pdf).

Definition sumZ (l : list Z) : Z := foldr Z.add 0 l.

(** Every running total of the list, taken from its start, is an integer
    between -2^53 and 2^53: one that a double holds exactly. *)
Definition exactTotals (l : list Z) : Prop :=
  ∀ k : nat, - 2 ^ 53 ≤ sumZ (take k l) ≤ 2 ^ 53.

(** The counts of a group can be added in any order without rounding:
    every id the group mentions is no name of [Object.prototype], its
    counts are finite numbers, and their absolute values add up to 2^53
    at most. *)
Definition safeCounts (g : list FieldDef) : Prop :=
  ∀ pdf, Exists (mentions pdf) g →
    (pdf ∉ objectPrototypeKeys)
    ∧ Forall (finiteIn pdf) g
    ∧ sumZ ((λ f, Z.abs (countIn pdf f)) <$> g) ≤ 2 ^ 53.


Definition optionsOf (f : FieldDef) : list string := default [] (options f).

(** The union of the option lists of a group: absent when every
    contributing descriptor has no options, else their concatenation
    reduced to first occurrences. *)
Definition unionOptions (g : list FieldDef) : option (list string) :=
  if bool_decide (Forall (λ f, options f = None) g) then None
  else Some (firstSeen (concat (optionsOf <$> g))).

(** A combined field set: no two entries have the same trimmed,
    lower-cased name, and the list is empty or an output of
    [dedupeFields]. *)
Definition isCombinedFieldSet (l : list FieldDef) : Prop :=
  NoDup ((λ e, trimmedLowercase (name e)) <$> l)
  ∧ (l = [] ∨ ∃ raw, l = dedupeFields raw).

(** What every reachable store satisfies: each cached value is a combined
    field set, and [combinedFields] is one unless it is a member inherited
    from [Object.prototype]. *)
Definition storeDeduped (s : FormStoreState) : Prop :=
  match combinedFields s with
  | Fields l => isCombinedFieldSet l
  | InheritedMember key => key ∈ objectPrototypeKeys
  end
  ∧ map_Forall (λ _ l, isCombinedFieldSet l) (fieldsCache s).

(** On the ids of [l] the comparison is a strict total order: it is
    consistent there, and it compares no two distinct ids of [l] as
    equal. *)
Definition ordersStrictly (localeCompare : string → string → comparison)
    (l : list string) : Prop :=
  (∀ x y, x ∈ l → y ∈ l → localeCompare y x = CompOpp (localeCompare x y))
  ∧ (∀ x y, x ∈ l → y ∈ l → localeCompare x y = Eq → x = y)
  ∧ (∀ x y z, x ∈ l → y ∈ l → z ∈ l →
       localeCompare x y = Lt → localeCompare y z = Lt → localeCompare x z = Lt).

(** A string without its control characters (the code units below U+0020
    that are not white space). *)
Fixpoint withoutControls (s : string) : string :=
  match s with
  | EmptyString => EmptyString
  | String c s' =>
      if ((N_of_ascii c <? 32) && negb (JsString.isWhiteSpace c))%N
      then withoutControls s'
      else String c (withoutControls s')
  end.

(** A comparison in the manner of a collation for which control
    characters are ignorable: code-unit order on what is left without
    them.  It is consistent, and it compares ["a"] and ["a\001"] as
    equal. *)
Definition ignoringControls (x y : string) : comparison :=
  codeUnitCompare (withoutControls x) (withoutControls y).

(** In a log of requests, no request follows a resolved request of the
    same selection signature. *)
Definition fetchedOnce (localeCompare : string → string → comparison)
    (log : list (list string * ServiceResult)) : Prop :=
  ∀ (i j : nat) p res q settled,
    (i < j)%nat →
    log !! i = Some (p, inr res) → log !! j = Some (q, settled) →
    selectionSignature localeCompare p ≠ selectionSignature localeCompare q.

(** The cache holds the deduplicated response of every resolved request
    of a log, under the signature of the request. *)
Definition cacheCovers (localeCompare : string → string → comparison)
    (log : list (list string * ServiceResult)) (s : FormStoreState) : Prop :=
  ∀ p res,
    (p, inr res) ∈ log →
    fieldsCache s !! selectionSignature localeCompare p
    = Some (dedupeFields (fields res)).

(** Occurrences written as a list of entries with integral counts. *)
Definition occ (l : list (string * Z)) : option (gmap string JsValue.t) :=
  Some (list_to_map (prod_map id (λ z, JsValue.Num (JsNumber.Fin z)) <$> l)).

(** The responses of [useFormStore.test.ts]. *)
Definition fieldsA : list FieldDef :=
  [ mkFieldDef "Name" text None None None; mkFieldDef "Age" number None None None ].

Definition fieldsB : list FieldDef :=
  [ mkFieldDef "Name" text None None None; mkFieldDef "Country" text None None None ].

Definition noResponse : ApiError := mkApiError "Request failed" 500 "/api/combined_fields".

(** [mockResolvedValueOnce(fieldsA).mockResolvedValueOnce(fieldsB)] *)
Definition mockService (n : nat) (pdfs : list string) : ServiceResult :=
  match n with
  | O => inr (mkResponse fieldsA None)
  | S O => inr (mkResponse fieldsB None)
  | _ => inl noResponse
  end.

(** The initial store with one document selected and nothing fetched. *)
Definition selectedWorld : World :=
  mkWorld (with_selectedPdfs ["a.pdf"] initialState) [].

(** A service that rejects every request. *)
Definition failingService (n : nat) (pdfs : list string) : ServiceResult :=
  inl noResponse.

(** ** The rest of the store ([stores/useFormStore.ts]) *)

Definition with_allPdfs (v : list string) (s : FormStoreState) : FormStoreState :=
  mkState v (selectedPdfs s) (combinedFields s) (fieldValues s) (schemaVersion s)
          (isLoadingPdfs s) (isLoadingFields s) (isFilling s) (fieldsCache s).

Definition with_isLoadingPdfs (v : bool) (s : FormStoreState) : FormStoreState :=
  mkState (allPdfs s) (selectedPdfs s) (combinedFields s) (fieldValues s) (schemaVersion s)
          v (isLoadingFields s) (isFilling s) (fieldsCache s).

Definition with_fieldValues (v : gmap string string) (s : FormStoreState) : FormStoreState :=
  mkState (allPdfs s) (selectedPdfs s) (combinedFields s) v (schemaVersion s)
          (isLoadingPdfs s) (isLoadingFields s) (isFilling s) (fieldsCache s).

(** [await listPdfs()], given how the request settles. *)
Definition listPdfs (settled : ApiError + list string) : Action (list string) := λ w,
  match settled with
  | inl e => (Throw e, w)
  | inr pdfs => (Normal pdfs, w)
  end.

Definition loadPdfs (settled : ApiError + list string) : Action unit :=
  Zustand.set (with_isLoadingPdfs true);;
  try_finally
    (pdfs ← listPdfs settled;
     Zustand.set (with_allPdfs pdfs))
    (Zustand.set (with_isLoadingPdfs false)).

Definition updateFieldValue (name value : string) : Action unit :=
  Zustand.set (λ state, with_fieldValues (<[name := value]> (fieldValues state)) state).

(** ** The library list ([components/LibraryList.tsx]) *)

Module JsSetOps.

(** [Set.prototype.has] *)
Definition has (s : list string) (x : string) : bool := bool_decide (x ∈ s).

(** [Set.prototype.delete]: the other values keep their places. *)
Definition delete (s : list string) (x : string) : list string :=
  filter (λ y, y ≠ x) s.

End JsSetOps.

(** [String.prototype.includes]: [q] occurs in [s] at some position. *)
Fixpoint includes (s q : string) : bool :=
  String.prefix q s
  || match s with
     | EmptyString => false
     | String _ s' => includes s' q
     end.

(** The state of the tag select. *)
Inductive TagFilter := tagAll | tagHasTag | tagNoTag.

(** The list shown, as the [useMemo] computes it from the store's
    [allPdfs] and the component's [query] and [tagFilter]. *)
Definition filtered (allPdfs : list string) (query : string) (tagFilter : TagFilter)
  : list string :=
  let q := JsString.toLowerCase (JsString.trim query) in
  let list := allPdfs in
  let list :=
    if negb (String.eqb q EmptyString)
    then filter (λ n, includes (JsString.toLowerCase n) q = true) list
    else list in
  (* Tag filter stub: currently not implemented *)
  let list :=
    match tagFilter with
    | tagAll => list
    | _ => list
    end in
  list.

(** The selection [onToggle(name)] passes to [setSelectedPdfs]. *)
Definition toggled (selectedPdfs : list string) (name : string) : list string :=
  let set := JsSet.of_list selectedPdfs in
  if JsSetOps.has set name then JsSetOps.delete set name else JsSet.add set name.

(** The selection [onSelectAll()] passes to [setSelectedPdfs]. *)
Definition union (selectedPdfs filtered : list string) : list string :=
  JsSet.of_list (selectedPdfs ++ filtered).

(** ** Actions that are not awaited *)

(** An [async] action suspended at its [await]: what it waits for, with
    the answer that will come. *)
Inductive InFlight :=
| AwaitingFields (sig : string) (settled : ServiceResult)
| AwaitingPdfs (settled : ApiError + list string).

(** The page: the store with the request log, and the actions that wait
    for an answer, oldest first. *)
Record Page := mkPage {
  world : World;
  inFlight : list InFlight
}.

(** [await promise], given how the promise settles. *)
Definition awaited {A} (settled : ApiError + A) : Action A := λ w,
  match settled with
  | inl e => (Throw e, w)
  | inr a => (Normal a, w)
  end.

(** What is left of [fetchCombinedFields] and of [loadPdfs] after their
    [await]: the rest of the [try] block, then the [finally] block. *)
Definition resume (waiting : InFlight) : Action unit :=
  match waiting with
  | AwaitingFields sig settled =>
      try_finally
        (res ← awaited settled;
         let deduped := dedupeFields (fields res) in
         Zustand.set (λ state,
           with_fieldsCache (<[sig := deduped]> (fieldsCache state))
             (with_combinedFields (Fields deduped) state)))
        (Zustand.set (with_isLoadingFields false))
  | AwaitingPdfs settled =>
      try_finally
        (pdfs ← awaited settled;
         Zustand.set (with_allPdfs pdfs))
        (Zustand.set (with_isLoadingPdfs false))
  end.

(** [void promise] on the promise of an [async] action: the action has
    run up to its [await]; what is left waits for the answer, and how it
    completes is dropped. *)
Definition void (begun : Action (option InFlight)) (p : Page) : Page :=
  match begun (world p) with
  | (Normal (Some waiting), w) => mkPage w (inFlight p ++ [waiting])
  | (_, w) => mkPage w (inFlight p)
  end.

Section Library.

Variable localeCompare : string → string → comparison.
Variable service : nat → list string → ServiceResult.

(** The request of [getCombinedFields(pdfs)] leaves: it is logged with
    the answer it will get. *)
Definition sendCombinedFields (pdfs : list string) : Action ServiceResult := λ w,
  let settled := service (length (calls w)) pdfs in
  (Normal settled, mkWorld (store w) (calls w ++ [(pdfs, settled)])).

(** [fetchCombinedFields()] up to its [await]. *)
Definition fetchCombinedFields_begun : Action (option InFlight) :=
  s ← Zustand.get;
  let pdfs := selectedPdfs s in
  let sig := selectionSignature localeCompare pdfs in
  (* Serve from cache if available *)
  s ← Zustand.get;
  match readCache (fieldsCache s) sig with
  | Some cached => Zustand.set (with_combinedFields cached);; mret None
  | None =>
      if (length pdfs =? 0)%nat
      then Zustand.set (with_combinedFields (Fields []));; mret None
      else
        Zustand.set (with_isLoadingFields true);;
        settled ← sendCombinedFields pdfs;
        mret (Some (AwaitingFields sig settled))
  end.

(** [setSelectedPdfs(pdfs)] up to the [await] inside
    [fetchCombinedFields]. *)
Definition setSelectedPdfs_begun (pdfs : list string) : Action (option InFlight) :=
  Zustand.set (with_selectedPdfs pdfs);;
  fetchCombinedFields_begun.

(** [loadPdfs()] up to its [await]. *)
Definition loadPdfs_begun (settled : ApiError + list string) : Action (option InFlight) :=
  Zustand.set (with_isLoadingPdfs true);;
  mret (Some (AwaitingPdfs settled)).

(** The handlers read [selectedPdfs] and [allPdfs] as of the last render,
    which by the time of an event shows the store as it is. *)
Definition onToggle (name : string) (p : Page) : Page :=
  let s := store (world p) in
  void (setSelectedPdfs_begun (toggled (selectedPdfs s) name)) p.

Definition onSelectAll (query : string) (tagFilter : TagFilter) (p : Page) : Page :=
  let s := store (world p) in
  void (setSelectedPdfs_begun
          (union (selectedPdfs s) (filtered (allPdfs s) query tagFilter))) p.

Definition onClearAll (p : Page) : Page :=
  void (setSelectedPdfs_begun []) p.

(** The effect run when the component mounts. *)
Definition onMount (settled : ApiError + list string) (p : Page) : Page :=
  let s := store (world p) in
  if (length (allPdfs s) =? 0)%nat then void (loadPdfs_begun settled) p else p.

(** The answer to the [i]-th waiting action arrives: the action runs to
    its end and waits no more. *)
Definition onAnswer (i : nat) (p : Page) : Page :=
  match inFlight p !! i with
  | Some waiting => mkPage (resume waiting (world p)).2 (delete i (inFlight p))
  | None => p
  end.

(** What can happen on the page, one event after the other: what a user
    does with the list, and the answers of the service, which come in any
    order and at any time after the request.  The guards of the view (a
    disabled button, a row not shown) are left out: every event can come
    at any time. *)
Inductive UiEvent :=
| UiMount (settled : ApiError + list string)
| UiToggle (name : string)
| UiSelectAll (query : string) (tagFilter : TagFilter)
| UiClearAll
| UiAnswer (i : nat).

Definition runUi (ev : UiEvent) (p : Page) : Page :=
  match ev with
  | UiMount settled => onMount settled p
  | UiToggle name => onToggle name p
  | UiSelectAll query tagFilter => onSelectAll query tagFilter p
  | UiClearAll => onClearAll p
  | UiAnswer i => onAnswer i p
  end.

Definition runPage (evs : list UiEvent) (p : Page) : Page :=
  foldl (λ p ev, runUi ev p) p evs.

(** The store and the log after the events, on a page where nothing was
    waiting at the start. *)
Definition runUis (evs : list UiEvent) (w : World) : World :=
  world (runPage evs (mkPage w [])).

End Library.

Section StoreOps.

Variable localeCompare : string → string → comparison.
Variable service : nat → list string → ServiceResult.

(** Sequential use of the whole store: the calls of the selection, and
    [loadPdfs] and [updateFieldValue] beside them. *)
Inductive StoreOp :=
| OpCall (c : Call)
| OpLoadPdfs (settled : ApiError + list string)
| OpUpdateFieldValue (name value : string).

Definition runOp (op : StoreOp) : Action unit :=
  match op with
  | OpCall c => runCall localeCompare service c
  | OpLoadPdfs settled => loadPdfs settled
  | OpUpdateFieldValue name value => updateFieldValue name value
  end.

Definition runOps (ops : list StoreOp) (w : World) : World :=
  foldl (λ w op, (runOp op w).2) w ops.

End StoreOps.

(** The operation is [reset]. *)
Definition opResets (op : StoreOp) : bool :=
  match op with OpCall c => isReset c | _ => false end.

(** The operation writes the field value [name]. *)
Definition opWrites (name : string) (op : StoreOp) : bool :=
  match op with
  | OpUpdateFieldValue n _ => bool_decide (n = name)
  | _ => false
  end.

(** Every cache entry is the deduplicated response of a logged request
    that resolved, under the signature of its non-empty selection. *)
Definition cacheFromLog (localeCompare : string → string → comparison)
    (w : World) : Prop :=
  ∀ k v,
    fieldsCache (store w) !! k = Some v →
    ∃ pdfs res,
      (pdfs, inr res) ∈ calls w ∧ pdfs ≠ []
      ∧ k = selectionSignature localeCompare pdfs ∧ v = dedupeFields (fields res).

(** * Properties *)

(** The two cases of [dedupeFields.test.ts] and the examples of the
    specification, run on the model. *)

Example test_dedupes_by_name :
  dedupeFields
    [ mkFieldDef "Name" text (Some true) None (occ [("a.pdf", 1)]);
      mkFieldDef "name" text None None (occ [("a.pdf", 2); ("b.pdf", 1)]);
      mkFieldDef "NAME" text None None (occ [("b.pdf", 3)]) ]
  = [ mkFieldDef "Name" text (Some true) None (occ [("a.pdf", 3); ("b.pdf", 4)]) ].
Proof. vm_compute. reflexivity. Qed.

Example test_merges_options :
  dedupeFields
    [ mkFieldDef "Country" text None (Some ["US"; "CA"]) None;
      mkFieldDef "country" text None (Some ["CA"; "MX"]) None ]
  = [ mkFieldDef "Country" text None (Some ["US"; "CA"; "MX"]) None ].
Proof. vm_compute. reflexivity. Qed.

Example normalizeName_example : normalizeName "Name" = normalizeName " name ".
Proof. reflexivity. Qed.

(** Doubles around 2^53, where the integers thin out to the even ones,
    and around 2^54, where they thin out to the multiples of four. *)
Example round_examples :
  JsNumber.round (2 ^ 53) = JsNumber.Fin (2 ^ 53)
  ∧ JsNumber.round (2 ^ 53 + 1) = JsNumber.Fin (2 ^ 53)
  ∧ JsNumber.round (2 ^ 53 + 2) = JsNumber.Fin (2 ^ 53 + 2)
  ∧ JsNumber.round (2 ^ 53 + 3) = JsNumber.Fin (2 ^ 53 + 4)
  ∧ JsNumber.round (- (2 ^ 53 + 3)) = JsNumber.Fin (- (2 ^ 53 + 4))
  ∧ JsNumber.round (2 ^ 54 + 2) = JsNumber.Fin (2 ^ 54)
  ∧ JsNumber.round (2 ^ 54 + 6) = JsNumber.Fin (2 ^ 54 + 8)
  ∧ JsNumber.round (2 ^ 1024 - 2 ^ 971) = JsNumber.Fin (2 ^ 1024 - 2 ^ 971)
  ∧ JsNumber.round (2 ^ 1024 - 2 ^ 970) = JsNumber.PosInf
  ∧ JsNumber.add (JsNumber.Fin (2 ^ 53)) (JsNumber.Fin 1) = JsNumber.Fin (2 ^ 53)
  ∧ JsNumber.add JsNumber.PosInf JsNumber.NegInf = JsNumber.NaN.
Proof. vm_compute. by repeat split. Qed.

(** [({})["constructor"]] is the inherited function, [({})["a.pdf"]] is
    [undefined]. *)
Example readCache_examples :
  readCache ∅ "constructor" = Some (InheritedMember "constructor")
  ∧ readCache ∅ "__proto__" = Some (InheritedMember "__proto__")
  ∧ readCache ∅ "a.pdf" = None
  ∧ readCache {[ "a.pdf" := fieldsA ]} "a.pdf" = Some (Fields fieldsA).
Proof. vm_compute. by repeat split. Qed.


(** ** Trimming and lower-casing *)

Module JsStringFacts.
Import JsString.

Lemma trimStart_blank r : isBlank r = true → trimStart r = EmptyString.
Proof.
  induction r as [|c r IH]; simpl; [done|].
  intros [Hc Hr]%andb_prop. rewrite Hc. by apply IH.
Qed.

Lemma trimEnd_blank r : isBlank r = true → trimEnd r = EmptyString.
Proof.
  induction r as [|c r IH]; simpl; [done|].
  intros [Hc Hr]%andb_prop. by rewrite (IH Hr), Hc.
Qed.

Lemma trimEnd_app_blank s r : isBlank r = true → trimEnd (s +:+ r) = trimEnd s.
Proof.
  intros Hr. induction s as [|c s IH]; simpl.
  - by apply trimEnd_blank.
  - by rewrite IH.
Qed.

Lemma trimStart_blank_app l s : isBlank l = true → trimStart (l +:+ s) = trimStart s.
Proof.
  induction l as [|c l IH]; simpl; [done|].
  intros [Hc Hl]%andb_prop. rewrite Hc. by apply IH.
Qed.

Lemma trim_app_blank s r : isBlank r = true → trim (s +:+ r) = trim s.
Proof.
  intros Hr. unfold trim. induction s as [|c s IH].
  - change (EmptyString +:+ r) with r. by rewrite (trimStart_blank r Hr).
  - change (String c s +:+ r) with (String c (s +:+ r)).
    cbn [trimStart]. destruct (isWhiteSpace c); [done|].
    by apply (trimEnd_app_blank (String c s)).
Qed.

(** White space around a string does not survive [trim]. *)
Lemma trim_surrounding l s r :
  isBlank l = true → isBlank r = true → trim (l +:+ s +:+ r) = trim s.
Proof.
  intros Hl Hr. unfold trim at 1. rewrite (trimStart_blank_app l _ Hl).
  by apply trim_app_blank.
Qed.

(** Lower-casing maps no character to or from white space. *)
Lemma isWhiteSpace_lowerChar c : isWhiteSpace (lowerChar c) = isWhiteSpace c.
Proof. destruct c as [[] [] [] [] [] [] [] []]; reflexivity. Qed.

Lemma toLowerCase_trimStart s : toLowerCase (trimStart s) = trimStart (toLowerCase s).
Proof.
  induction s as [|c s IH]; simpl; [done|].
  rewrite isWhiteSpace_lowerChar. by destruct (isWhiteSpace c).
Qed.

Lemma toLowerCase_trimEnd s : toLowerCase (trimEnd s) = trimEnd (toLowerCase s).
Proof.
  induction s as [|c s IH]; simpl; [done|].
  rewrite <- IH, isWhiteSpace_lowerChar.
  destruct (trimEnd s); simpl; [by destruct (isWhiteSpace c)|done].
Qed.

Lemma toLowerCase_trim s : toLowerCase (trim s) = trim (toLowerCase s).
Proof. unfold trim. by rewrite toLowerCase_trimEnd, toLowerCase_trimStart. Qed.

End JsStringFacts.

(** Names that differ only in case have one key. *)
Lemma normalizeName_case a b :
  JsString.toLowerCase a = JsString.toLowerCase b → normalizeName a = normalizeName b.
Proof.
  intros H. unfold normalizeName. by rewrite !JsStringFacts.toLowerCase_trim, H.
Qed.

(** Names that differ only in surrounding white space have one key. *)
Lemma normalizeName_surrounding l s r :
  JsString.isBlank l = true → JsString.isBlank r = true →
  normalizeName (l +:+ s +:+ r) = normalizeName s.
Proof.
  intros Hl Hr. unfold normalizeName. by rewrite JsStringFacts.trim_surrounding.
Qed.

(** ** The specification's trimmed, lower-cased name *)

Lemma dropWhile_snoc {A} (p : A → bool) (l : list A) (c : A) :
  dropWhile p (l ++ [c])
  = match dropWhile p l with
    | [] => if p c then [] else [c]
    | t => t ++ [c]
    end.
Proof.
  induction l as [|x l IH]; simpl; [done|]. by destruct (p x).
Qed.

Lemma list_of_trimStart s :
  list_ascii_of_string (JsString.trimStart s)
  = dropWhile JsString.isWhiteSpace (list_ascii_of_string s).
Proof.
  induction s as [|c s IH]; simpl; [done|]. by destruct (JsString.isWhiteSpace c).
Qed.

Lemma list_of_trimEnd s :
  list_ascii_of_string (JsString.trimEnd s)
  = rev (dropWhile JsString.isWhiteSpace (rev (list_ascii_of_string s))).
Proof.
  induction s as [|c s IH]; simpl; [done|].
  rewrite dropWhile_snoc.
  destruct (dropWhile JsString.isWhiteSpace (rev (list_ascii_of_string s))) as [|a t].
  - destruct (JsString.trimEnd s); [|discriminate IH].
    by destruct (JsString.isWhiteSpace c).
  - destruct (JsString.trimEnd s) as [|c' s'].
    + simpl in IH. symmetry in IH. apply app_eq_nil in IH as [_ ?]. discriminate.
    + rewrite rev_app_distr. simpl. simpl in IH. by rewrite IH.
Qed.

Lemma list_of_toLowerCase s :
  list_ascii_of_string (JsString.toLowerCase s)
  = JsString.lowerChar <$> list_ascii_of_string s.
Proof. induction s as [|c s IH]; csimpl; [done|]. by rewrite IH. Qed.

(** The key the code merges by is the name as the specification compares
    names. *)
Lemma normalizeName_spec s : normalizeName s = trimmedLowercase s.
Proof.
  unfold normalizeName, trimmedLowercase, JsString.trim.
  rewrite <- (string_of_list_ascii_of_string
                (JsString.toLowerCase (JsString.trimEnd (JsString.trimStart s)))).
  by rewrite list_of_toLowerCase, list_of_trimEnd, list_of_trimStart.
Qed.

Lemma keyOf_spec f : keyOf f = trimmedLowercase (name f).
Proof. apply normalizeName_spec. Qed.

Lemma fmap_keyOf_spec (l : list FieldDef) :
  keyOf <$> l = (λ f, trimmedLowercase (name f)) <$> l.
Proof. apply list_fmap_ext. intros _ f _. apply keyOf_spec. Qed.

Lemma contributors_group e fs : contributors e fs = group (keyOf e) fs.
Proof.
  unfold contributors, group. apply list_filter_iff. intros f.
  by rewrite !keyOf_spec.
Qed.

(** Names that differ only in case are one name to the specification. *)
Lemma trimmedLowercase_case a b :
  JsString.toLowerCase a = JsString.toLowerCase b → trimmedLowercase a = trimmedLowercase b.
Proof. rewrite <- !normalizeName_spec. apply normalizeName_case. Qed.

(** Names that differ only in surrounding white space are one name to the
    specification. *)
Lemma trimmedLowercase_surrounding l s r :
  JsString.isBlank l = true → JsString.isBlank r = true →
  trimmedLowercase (l +:+ s +:+ r) = trimmedLowercase s.
Proof. rewrite <- !normalizeName_spec. apply normalizeName_surrounding. Qed.

(** ** Insertion-ordered sets *)

Module JsSetFacts.
Import JsSet.

Lemma filter_notin_snoc (acc : list string) x (l : list string) :
  filter (λ y, y ∉ acc ++ [x]) l = filter (λ y, y ∉ acc) (filter (λ y, y ≠ x) l).
Proof.
  induction l as [|y l IH]; [done|].
  rewrite !filter_cons. destruct (decide (y = x)) as [->|Hne].
  - rewrite decide_False
      by (intros Hx; apply Hx; apply elem_of_app; right; apply list_elem_of_singleton; done).
    rewrite (decide_False (P := x ≠ x)) by (intros ?; done). done.
  - rewrite (decide_True (P := y ≠ x)) by done. rewrite filter_cons.
    destruct (decide (y ∉ acc)) as [Hy|Hy].
    + rewrite decide_True; [by f_equal|].
      rewrite not_elem_of_app, list_elem_of_singleton. done.
    + rewrite decide_False; [done|].
      rewrite not_elem_of_app. intros [? _]. done.
Qed.

Lemma filter_notin_drop (acc : list string) x (l : list string) :
  x ∈ acc →
  filter (λ y, y ∉ acc) (filter (λ y, y ≠ x) l) = filter (λ y, y ∉ acc) l.
Proof.
  intros Hx. induction l as [|y l IH]; [done|].
  rewrite !filter_cons. destruct (decide (y = x)) as [->|Hne].
  - rewrite (decide_False (P := x ≠ x)) by (intros ?; done).
    rewrite decide_False by (intros ?; done). done.
  - rewrite (decide_True (P := y ≠ x)) by done. rewrite filter_cons.
    destruct (decide (y ∉ acc)); [by f_equal|done].
Qed.

(** The loop of [new Set(l)], started from the elements [acc]. *)
Lemma foldl_add (l acc : list string) :
  foldl add acc l = acc ++ filter (λ y, y ∉ acc) (firstSeen l).
Proof.
  revert acc. induction l as [|x l IH]; intros acc; simpl.
  - by rewrite filter_nil, app_nil_r.
  - rewrite IH. unfold add. rewrite filter_cons. destruct (decide (x ∈ acc)) as [Hx|Hx].
    + rewrite decide_False by (intros ?; done). by rewrite filter_notin_drop.
    + rewrite decide_True by done. rewrite <- app_assoc. simpl.
      by rewrite filter_notin_snoc.
Qed.

Lemma of_list_firstSeen (l : list string) : of_list l = firstSeen l.
Proof.
  unfold of_list. rewrite foldl_add. simpl.
  induction (firstSeen l) as [|y l' IH]; [done|].
  rewrite filter_cons. rewrite decide_True by set_solver. by f_equal.
Qed.

Lemma elem_of_firstSeen (l : list string) x : x ∈ firstSeen l ↔ x ∈ l.
Proof.
  induction l as [|y l IH]; simpl; [done|].
  rewrite !elem_of_cons, list_elem_of_filter, IH.
  destruct (decide (x = y)); tauto.
Qed.

Lemma NoDup_firstSeen (l : list string) : NoDup (firstSeen l).
Proof.
  induction l as [|y l IH]; simpl; [constructor|].
  constructor.
  - rewrite list_elem_of_filter. tauto.
  - by apply NoDup_filter.
Qed.

Lemma filter_ne_notin (l : list string) x : x ∉ l → filter (λ y, y ≠ x) l = l.
Proof.
  induction l as [|y l IH]; [done|]. intros Hx.
  apply not_elem_of_cons in Hx as [Hne Hx].
  rewrite filter_cons. rewrite decide_True by done. f_equal. by apply IH.
Qed.

Lemma firstSeen_NoDup (l : list string) : NoDup l → firstSeen l = l.
Proof.
  induction 1 as [|x l Hx Hl IH]; simpl; [done|].
  rewrite IH. by rewrite filter_ne_notin.
Qed.

Lemma firstSeen_idemp (l : list string) : firstSeen (firstSeen l) = firstSeen l.
Proof. apply firstSeen_NoDup, NoDup_firstSeen. Qed.

(** A set built from an already duplicate-free prefix [a] followed by
    [b]: [a] first, then the new elements of [b] in their order. *)
Lemma of_list_app_NoDup (a b : list string) :
  NoDup a → of_list (a ++ b) = a ++ filter (λ y, y ∉ a) (firstSeen b).
Proof.
  intros Ha. unfold of_list. rewrite foldl_app.
  change (foldl add [] a) with (of_list a).
  rewrite of_list_firstSeen, firstSeen_NoDup by done. apply foldl_add.
Qed.

Lemma of_list_app_of_list (a b : list string) :
  of_list (of_list a ++ b) = of_list (a ++ b).
Proof.
  unfold of_list at 1 3. rewrite !foldl_app. f_equal.
  change (foldl add [] (of_list a)) with (of_list (of_list a)).
  change (foldl add [] a) with (of_list a).
  by rewrite !of_list_firstSeen, firstSeen_idemp.
Qed.

End JsSetFacts.

(** ** Insertion-ordered maps *)

Module JsMapFacts.
Import JsMap.

Lemma get_None (m : t) k : get m k = None ↔ k ∉ keys m.
Proof.
  unfold keys. induction m as [|[k' v] m IH]; csimpl.
  - split; [intros _; apply not_elem_of_nil|done].
  - rewrite not_elem_of_cons. destruct (decide (k' = k)) as [->|Hne].
    + split; [done|]. intros [? _]. done.
    + rewrite IH. split; [intros ?; split; [congruence|done]|tauto].
Qed.

Lemma get_set (m : t) k v k' :
  get (set m k v) k' = if decide (k = k') then Some v else get m k'.
Proof.
  induction m as [|[k0 v0] m IH]; csimpl.
  - destruct (decide (k = k')); done.
  - destruct (decide (k0 = k)) as [->|Hne]; csimpl.
    + destruct (decide (k = k')); done.
    + rewrite IH. destruct (decide (k0 = k')) as [->|?]; [|done].
      by rewrite decide_False.
Qed.

Lemma keys_set (m : t) k v : keys (set m k v) = JsSet.add (keys m) k.
Proof.
  unfold keys, JsSet.add. induction m as [|[k0 v0] m IH]; csimpl; [done|].
  destruct (decide (k0 = k)) as [->|Hne]; csimpl.
  - rewrite decide_True; [done|left].
  - rewrite IH. destruct (decide (k ∈ m.*1)) as [Hin|Hin].
    + rewrite decide_True; [done|by right].
    + rewrite decide_False; [done|].
      intros [?|?]%elem_of_cons; [congruence|done].
Qed.

(** With distinct keys every stored pair is what [get] returns. *)
Lemma get_of_elem (m : t) k v : NoDup (keys m) → (k, v) ∈ m → get m k = Some v.
Proof.
  unfold keys. induction m as [|[k0 v0] m IH]; csimpl; intros Hnd Hin.
  - by apply elem_of_nil in Hin.
  - apply NoDup_cons in Hnd as [Hk0 Hnd].
    apply elem_of_cons in Hin as [[= <- <-]|Hin].
    + by rewrite decide_True.
    + rewrite decide_False; [by apply IH|].
      intros ->. apply Hk0. apply list_elem_of_fmap. by exists (k, v).
Qed.

End JsMapFacts.

(** ** The loop of [dedupeFields] *)

Lemma group_snoc k fs f :
  group k (fs ++ [f]) = group k fs ++ (if decide (keyOf f = k) then [f] else []).
Proof.
  unfold group. rewrite filter_app, filter_cons, filter_nil.
  by destruct (decide (keyOf f = k)).
Qed.

Lemma mergeGroup_snoc g f :
  mergeGroup (g ++ [f])
  = Some (match mergeGroup g with
          | None => cloneField f
          | Some e => mergeField e f
          end).
Proof. destruct g as [|f0 g]; csimpl; [done|]. by rewrite foldl_snoc. Qed.

(** Induction over what a group merges to: the clone of a first
    descriptor, then one [mergeField] per later descriptor. *)
Lemma mergeGroup_ind (Q : list FieldDef → FieldDef → Prop) :
  (∀ f, Q [f] (cloneField f)) →
  (∀ g e f, mergeGroup g = Some e → Q g e → Q (g ++ [f]) (mergeField e f)) →
  ∀ g e, mergeGroup g = Some e → Q g e.
Proof.
  intros Hone Hstep g. induction g as [|f g IH] using rev_ind; intros e He.
  - done.
  - rewrite mergeGroup_snoc in He. injection He as <-.
    destruct (mergeGroup g) as [e0|] eqn:Hg.
    + by apply Hstep; [|apply IH].
    + destruct g; [apply Hone|done].
  Qed.

Lemma mergeField_name e f : name (mergeField e f) = name e.
Proof. unfold mergeField. by repeat case_match. Qed.

Lemma mergeField_kind e f : kind (mergeField e f) = kind e.
Proof. unfold mergeField. by repeat case_match. Qed.

Lemma mergeField_keyOf e f : keyOf (mergeField e f) = keyOf e.
Proof. unfold keyOf. by rewrite mergeField_name. Qed.

Lemma mergeGroup_head g e :
  mergeGroup g = Some e → ∃ f rest, g = f :: rest ∧ name e = name f ∧ kind e = kind f.
Proof.
  revert g e. apply mergeGroup_ind.
  - intros f. by exists f, [].
  - intros g e f _ (f0 & rest & -> & Hn & Hk). exists f0, (rest ++ [f]).
    by rewrite mergeField_name, mergeField_kind.
Qed.

(** The state of the [Map] after the loop has consumed [fs]. *)
Lemma dedupe_loop fs :
  let m := foldl dedupeStep JsMap.empty fs in
  JsMap.keys m = JsSet.of_list (keyOf <$> fs)
  ∧ ∀ k, JsMap.get m k = mergeGroup (group k fs).
Proof.
  induction fs as [|f fs [IHk IHg]] using rev_ind; csimpl; [done|].
  rewrite foldl_snoc. set (m := foldl dedupeStep JsMap.empty fs) in *.
  assert (∀ v, JsMap.keys (JsMap.set m (keyOf f) v)
               = JsSet.of_list (keyOf <$> fs ++ [f])) as Hkeys.
  { intros v. rewrite JsMapFacts.keys_set, IHk, fmap_app. csimpl.
    unfold JsSet.of_list. by rewrite foldl_snoc. }
  unfold dedupeStep. fold (keyOf f). split.
  - destruct (JsMap.get m (keyOf f)); apply Hkeys.
  - intros k. rewrite group_snoc, (IHg (keyOf f)).
    destruct (mergeGroup (group (keyOf f) fs)) as [e|] eqn:He;
      rewrite JsMapFacts.get_set;
      (destruct (decide (keyOf f = k)) as [<-|Hne];
       [by rewrite mergeGroup_snoc, He|by rewrite app_nil_r]).
Qed.

Lemma dedupe_loop_keys fs :
  JsMap.keys (foldl dedupeStep JsMap.empty fs) = firstSeen (keyOf <$> fs).
Proof. rewrite <- JsSetFacts.of_list_firstSeen. apply dedupe_loop. Qed.

Lemma mergeGroup_keyOf k fs e : mergeGroup (group k fs) = Some e → keyOf e = k.
Proof.
  intros He. destruct (mergeGroup_head _ _ He) as (f & rest & Hg & Hn & _).
  assert (f ∈ group k fs) as Hf by (rewrite Hg; left).
  apply list_elem_of_filter in Hf as [<- _]. unfold keyOf. by rewrite Hn.
Qed.

(** Every stored pair is the merge of its key's group. *)
Lemma dedupe_loop_elem fs k e :
  (k, e) ∈ foldl dedupeStep JsMap.empty fs →
  keyOf e = k ∧ mergeGroup (group k fs) = Some e.
Proof.
  intros Hin. destruct (dedupe_loop fs) as [_ Hget].
  assert (mergeGroup (group k fs) = Some e) as He.
  { rewrite <- Hget. apply JsMapFacts.get_of_elem; [|done].
    rewrite dedupe_loop_keys. apply JsSetFacts.NoDup_firstSeen. }
  split; [by eapply mergeGroup_keyOf|done].
Qed.

Lemma dedupeFields_keys fs : keyOf <$> dedupeFields fs = firstSeen (keyOf <$> fs).
Proof.
  rewrite <- dedupe_loop_keys. unfold dedupeFields, JsMap.values, JsMap.keys.
  pose proof (dedupe_loop_elem fs) as Hel.
  induction (foldl dedupeStep JsMap.empty fs) as [|[k e] m IH]; csimpl; [done|].
  f_equal.
  - apply (Hel k e). left.
  - apply IH. intros k' e' Hin. apply Hel. by right.
Qed.

Lemma dedupeFields_elem fs e :
  e ∈ dedupeFields fs → mergeGroup (group (keyOf e) fs) = Some e.
Proof.
  unfold dedupeFields, JsMap.values. intros ([k e'] & -> & Hin)%list_elem_of_fmap.
  csimpl. apply dedupe_loop_elem in Hin as [-> ?]. done.
Qed.

(** ** Occurrences *)

Lemma proto_inherited : "__proto__" ∈ objectPrototypeKeys.
Proof. unfold objectPrototypeKeys. by repeat constructor. Qed.

Lemma not_inherited_not_proto pdf : pdf ∉ objectPrototypeKeys → pdf ≠ "__proto__".
Proof. intros H ->. apply H, proto_inherited. Qed.

(** Up to 2^53 in absolute value every integer is a double. *)
Lemma round_exact z : - 2 ^ 53 ≤ z ≤ 2 ^ 53 → JsNumber.round z = JsNumber.Fin z.
Proof.
  intros Hz. unfold JsNumber.round. cbv zeta.
  rewrite (proj2 (Z.leb_le (Z.abs z) (2 ^ 53))); [done|].
  apply Z.abs_le. done.
Qed.

Lemma plus_zero_exact z :
  - 2 ^ 53 ≤ z ≤ 2 ^ 53 →
  JsValue.plus JsValue.zero (JsValue.Num (JsNumber.Fin z)) = JsValue.Num (JsNumber.Fin z).
Proof. intros Hz. simpl. by rewrite round_exact. Qed.

Lemma plus_exact x y :
  - 2 ^ 53 ≤ x + y ≤ 2 ^ 53 →
  JsValue.plus (JsValue.Num (JsNumber.Fin x)) (JsValue.Num (JsNumber.Fin y))
  = JsValue.Num (JsNumber.Fin (x + y)).
Proof. intros Hz. simpl. by rewrite round_exact. Qed.

Lemma assign_lookup_here (out : gmap string JsValue.t) pdf v :
  assign out pdf v !! pdf
  = match out !! pdf with
    | Some _ => Some v
    | None => if bool_decide (pdf = "__proto__") then None else Some v
    end.
Proof.
  unfold assign. destruct (out !! pdf) eqn:Hout.
  - by rewrite lookup_insert_eq.
  - case_bool_decide; [done|]. by rewrite lookup_insert_eq.
Qed.

Lemma assign_lookup_ne (out : gmap string JsValue.t) pdf v k :
  pdf ≠ k → assign out pdf v !! k = out !! k.
Proof.
  intros Hne. unfold assign.
  destruct (out !! pdf); [|case_bool_decide; [done|]]; by rewrite lookup_insert_ne.
Qed.

Lemma currentOrZero_lookup (r out : gmap string JsValue.t) pdf :
  r !! pdf = out !! pdf → currentOrZero r pdf = currentOrZero out pdf.
Proof. intros H. unfold currentOrZero. by rewrite H. Qed.

(** What one loop of [mergeOccurrences] leaves under a document id. *)
Lemma addEntries_lookup (src out : gmap string JsValue.t) pdf :
  addEntries src out !! pdf
  = match src !! pdf with
    | Some count =>
        assign out pdf (JsValue.plus (currentOrZero out pdf) count) !! pdf
    | None => out !! pdf
    end.
Proof.
  unfold addEntries. revert pdf.
  apply (map_fold_weak_ind (λ (r : gmap string JsValue.t) (m : gmap string JsValue.t),
    ∀ pdf, r !! pdf
           = match m !! pdf with
             | Some count =>
                 assign out pdf (JsValue.plus (currentOrZero out pdf) count) !! pdf
             | None => out !! pdf
             end)).
  - intros pdf. by rewrite lookup_empty.
  - intros i x m r Hi IH pdf. destruct (decide (i = pdf)) as [<-|Hne].
    + rewrite lookup_insert_eq. pose proof (IH i) as Hr. rewrite Hi in Hr.
      rewrite !assign_lookup_here, Hr. by rewrite (currentOrZero_lookup r out i Hr).
    + rewrite lookup_insert_ne by done. rewrite assign_lookup_ne by done. apply IH.
Qed.

(** Under an id that is no name of [Object.prototype], the loop adds. *)
Lemma addEntries_lookup_plain (src out : gmap string JsValue.t) pdf :
  pdf ∉ objectPrototypeKeys →
  addEntries src out !! pdf
  = match src !! pdf with
    | Some count => Some (JsValue.plus (default JsValue.zero (out !! pdf)) count)
    | None => out !! pdf
    end.
Proof.
  intros Hpdf. rewrite addEntries_lookup. destruct (src !! pdf) as [count|]; [|done].
  rewrite assign_lookup_here. unfold currentOrZero.
  rewrite (bool_decide_eq_false_2 (pdf = "__proto__"))
    by by apply not_inherited_not_proto.
  rewrite (bool_decide_eq_false_2 (pdf ∈ objectPrototypeKeys)) by done.
  by destruct (out !! pdf).
Qed.

Lemma mergeOccurrences_None a b :
  mergeOccurrences a b = None ↔ a = None ∧ b = None.
Proof. destruct a, b; simpl; split; try done; by intros [? ?]. Qed.

(** A merge has no id that neither side has. *)
Lemma mergeOccurrences_lookup_None a b pdf :
  lookupIn a pdf = None → lookupIn b pdf = None →
  lookupIn (mergeOccurrences a b) pdf = None.
Proof.
  destruct a as [a|], b as [b|]; simpl; intros Ha Hb; [| | |done];
    rewrite ?addEntries_lookup, ?Ha, ?Hb, ?addEntries_lookup, ?Ha, ?Hb;
    by rewrite ?lookup_empty.
Qed.

(** Under an id that is no name of [Object.prototype], a merge holds the
    sum of what the two sides have, started from 0. *)
Lemma mergeOccurrences_lookup a b pdf :
  pdf ∉ objectPrototypeKeys →
  lookupIn (mergeOccurrences a b) pdf
  = match lookupIn a pdf, lookupIn b pdf with
    | None, None => None
    | Some x, None => Some (JsValue.plus JsValue.zero x)
    | None, Some y => Some (JsValue.plus JsValue.zero y)
    | Some x, Some y => Some (JsValue.plus (JsValue.plus JsValue.zero x) y)
    end.
Proof.
  intros Hpdf.
  destruct a as [a|], b as [b|]; cbn [mergeOccurrences lookupIn];
    rewrite ?(addEntries_lookup_plain _ _ pdf Hpdf); rewrite ?lookup_empty;
    [|done..].
  by destruct (a !! pdf), (b !! pdf).
Qed.

Lemma mergeField_occurrences e f :
  occurrences (mergeField e f) = mergeOccurrences (occurrences e) (occurrences f).
Proof. unfold mergeField. by repeat case_match. Qed.

Lemma mergeField_occurrences_None e f :
  occurrences (mergeField e f) = None ↔ occurrences e = None ∧ occurrences f = None.
Proof. rewrite mergeField_occurrences. apply mergeOccurrences_None. Qed.

Lemma mentions_valueIn pdf f : mentions pdf f ↔ is_Some (valueIn pdf f).
Proof.
  unfold mentions, valueIn, lookupIn. destruct (occurrences f) as [m|]; split.
  - by intros (m' & [= <-] & ?).
  - intros ?. by exists m.
  - by intros (m' & ? & _).
  - by intros [? ?].
Qed.

Lemma not_mentions_valueIn pdf f : ¬ mentions pdf f ↔ valueIn pdf f = None.
Proof. rewrite mentions_valueIn, <- eq_None_not_Some. done. Qed.

Lemma mergeField_valueIn pdf e f :
  pdf ∉ objectPrototypeKeys →
  valueIn pdf (mergeField e f)
  = match valueIn pdf e, valueIn pdf f with
    | None, None => None
    | Some x, None => Some (JsValue.plus JsValue.zero x)
    | None, Some y => Some (JsValue.plus JsValue.zero y)
    | Some x, Some y => Some (JsValue.plus (JsValue.plus JsValue.zero x) y)
    end.
Proof.
  intros Hpdf. unfold valueIn. rewrite mergeField_occurrences.
  by apply mergeOccurrences_lookup.
Qed.

Lemma mergeField_mentions_inv pdf e f :
  mentions pdf (mergeField e f) → mentions pdf e ∨ mentions pdf f.
Proof.
  rewrite !mentions_valueIn. unfold valueIn at 1. rewrite mergeField_occurrences.
  intros Hm. destruct (valueIn pdf e) eqn:He; [left; by eexists|].
  destruct (valueIn pdf f) eqn:Hf; [right; by eexists|].
  rewrite mergeOccurrences_lookup_None in Hm by done. by destruct Hm.
Qed.

Lemma mergeField_mentions pdf e f :
  pdf ∉ objectPrototypeKeys →
  mentions pdf (mergeField e f) ↔ mentions pdf e ∨ mentions pdf f.
Proof.
  intros Hpdf. split; [apply mergeField_mentions_inv|].
  rewrite !mentions_valueIn, (mergeField_valueIn pdf e f Hpdf).
  intros [[x ->]|[y ->]]; [by destruct (valueIn pdf f)|by destruct (valueIn pdf e)].
Qed.

Lemma sumZ_snoc l c : sumZ (l ++ [c]) = sumZ l + c.
Proof. unfold sumZ. induction l as [|z l IH]; simpl; lia. Qed.

Lemma exactTotals_snoc l c :
  exactTotals (l ++ [c]) →
  exactTotals l ∧ - 2 ^ 53 ≤ sumZ l ≤ 2 ^ 53 ∧ - 2 ^ 53 ≤ sumZ l + c ≤ 2 ^ 53.
Proof.
  intros H. split; [|split].
  - intros k. destruct (decide (k ≤ length l)%nat) as [Hk|Hk].
    + specialize (H k). by rewrite take_app_le in H.
    + specialize (H (length l)). rewrite take_app_length in H.
      rewrite take_ge by (clear -Hk; lia). done.
  - specialize (H (length l)). by rewrite take_app_length in H.
  - specialize (H (S (length l))). rewrite take_ge in H.
    + by rewrite sumZ_snoc in H.
    + rewrite length_app. simpl. lia.
Qed.

(** What a group's merge holds under a document id, step by step. *)
Lemma mergeField_count pdf e f :
  pdf ∉ objectPrototypeKeys →
  finiteIn pdf e → finiteIn pdf f →
  - 2 ^ 53 ≤ countIn pdf e ≤ 2 ^ 53 →
  - 2 ^ 53 ≤ countIn pdf e + countIn pdf f ≤ 2 ^ 53 →
  finiteIn pdf (mergeField e f)
  ∧ countIn pdf (mergeField e f) = countIn pdf e + countIn pdf f.
Proof.
  intros Hpdf He Hf Hbe Hbs. unfold finiteIn, countIn in *.
  rewrite (mergeField_valueIn pdf e f Hpdf).
  destruct (valueIn pdf e) as [x|], (valueIn pdf f) as [y|].
  - destruct (He x eq_refl) as [zx ->], (Hf y eq_refl) as [zy ->].
    rewrite plus_zero_exact, plus_exact by done. split; [|done].
    intros v [= <-]. by eexists.
  - destruct (He x eq_refl) as [zx ->].
    rewrite plus_zero_exact by done. split; [|lia].
    intros v [= <-]. by eexists.
  - destruct (Hf y eq_refl) as [zy ->].
    rewrite plus_zero_exact by done. split; [|done].
    intros v [= <-]. by eexists.
  - split; [|done]. by intros v.
Qed.

Lemma mergeGroup_occurrences g e :
  mergeGroup g = Some e →
  (occurrences e = None ↔ Forall (λ f, occurrences f = None) g)
  ∧ ∀ pdf,
      (mentions pdf e → Exists (mentions pdf) g)
      ∧ (pdf ∉ objectPrototypeKeys →
         (Exists (mentions pdf) g → mentions pdf e)
         ∧ (Forall (finiteIn pdf) g → exactTotals (countIn pdf <$> g) →
            finiteIn pdf e ∧ countIn pdf e = sumZ (countIn pdf <$> g))).
Proof.
  revert g e. apply mergeGroup_ind.
  - intros f. split.
    + rewrite Forall_singleton. simpl. by destruct (occurrences f).
    + intros pdf.
      assert (∀ P : Prop, (mentions pdf (cloneField f) → P) ↔ (mentions pdf f → P)) as Hm.
      { intros P. unfold mentions. simpl. by destruct (occurrences f). }
      split; [apply Hm; intros ?; by constructor|]. intros _. split.
      * intros [?|?%Exists_nil]%Exists_cons; [|done].
        unfold mentions in *. simpl. by destruct (occurrences f).
      * rewrite Forall_singleton. intros Hf _.
        unfold finiteIn, countIn, valueIn in *. simpl.
        destruct (occurrences f); simpl in *; (split; [done|lia]).
  - intros g e f _ [IHnone IHpt]. split.
    + rewrite mergeField_occurrences_None, Forall_app, Forall_singleton. tauto.
    + intros pdf. destruct (IHpt pdf) as [IHinv IHplain]. split.
      * intros [?|?]%mergeField_mentions_inv; apply Exists_app; [left; auto|].
        right. by constructor.
      * intros Hpdf. destruct (IHplain Hpdf) as [IHm IHc]. split.
        -- rewrite (mergeField_mentions pdf e f Hpdf), Exists_app, Exists_cons, Exists_nil.
           tauto.
        -- rewrite Forall_app, Forall_singleton, fmap_app. csimpl.
           intros [Hg Hf] [Hex [Hbg Hbs]]%exactTotals_snoc.
           destruct (IHc Hg Hex) as [Hfin Hcnt]. rewrite sumZ_snoc, <- Hcnt.
           rewrite <- Hcnt in Hbg, Hbs. by apply mergeField_count.
Qed.

(** ** Options *)

Lemma mergeField_options e f :
  options (mergeField e f)
  = match options e, options f with
    | None, None => None
    | a, b => Some (JsSet.of_list (default [] a ++ default [] b))
    end.
Proof. unfold mergeField. destruct (options e), (options f), (required f) as [[]|]; done. Qed.

Lemma concat_optionsOf_None g :
  Forall (λ f, options f = None) g → concat (optionsOf <$> g) = [].
Proof.
  induction 1 as [|f g Hf _ IH]; csimpl; [done|].
  unfold optionsOf at 1. by rewrite Hf, IH.
Qed.

Lemma cloneField_options_union f : options (cloneField f) = unionOptions [f].
Proof.
  unfold unionOptions. simpl. destruct (options f) as [o|] eqn:Ho.
  - rewrite bool_decide_eq_false_2.
    + unfold optionsOf. rewrite Ho. simpl.
      by rewrite app_nil_r, JsSetFacts.of_list_firstSeen.
    + intros [Hf _]%Forall_cons. congruence.
  - rewrite bool_decide_eq_true_2; [done|]. by constructor.
Qed.

Lemma mergeField_options_union g e f :
  options e = unionOptions g → options (mergeField e f) = unionOptions (g ++ [f]).
Proof.
  intros He. rewrite mergeField_options, He. unfold unionOptions.
  rewrite fmap_app, concat_app. csimpl. rewrite app_nil_r.
  case_bool_decide as Hg.
  - rewrite (concat_optionsOf_None g Hg). destruct (options f) as [b|] eqn:Hf.
    + rewrite bool_decide_eq_false_2.
      * unfold optionsOf. rewrite Hf. simpl. by rewrite JsSetFacts.of_list_firstSeen.
      * rewrite Forall_app, Forall_singleton. intros [_ ?]. congruence.
    + rewrite bool_decide_eq_true_2; [done|].
      by rewrite Forall_app, Forall_singleton.
  - rewrite bool_decide_eq_false_2.
    + simpl. f_equal. rewrite <- !JsSetFacts.of_list_firstSeen.
      apply JsSetFacts.of_list_app_of_list.
    + rewrite Forall_app. tauto.
Qed.

Lemma mergeGroup_options g e : mergeGroup g = Some e → options e = unionOptions g.
Proof.
  revert g e. apply mergeGroup_ind.
  - apply cloneField_options_union.
  - intros g e f _. apply mergeField_options_union.
Qed.

(** ** Outputs are fixed points of the clone *)

Lemma unionOptions_of_list g o :
  unionOptions g = Some o → JsSet.of_list o = o.
Proof.
  unfold unionOptions. case_bool_decide; [done|]. intros [= <-].
  rewrite JsSetFacts.of_list_firstSeen. apply JsSetFacts.firstSeen_idemp.
Qed.

Lemma cloneField_output fs e : e ∈ dedupeFields fs → cloneField e = e.
Proof.
  intros He%dedupeFields_elem%mergeGroup_options.
  destruct e as [n k r o oc]. unfold cloneField. simpl in *. f_equal.
  - destruct o as [o|]; [|done]. f_equal. by eapply unionOptions_of_list.
  - by destruct oc.
Qed.

Lemma JsMap_set_fresh (m : JsMap.t) k v :
  k ∉ JsMap.keys m → JsMap.set m k v = m ++ [(k, v)].
Proof.
  unfold JsMap.keys. induction m as [|[k0 v0] m IH]; csimpl; [done|].
  intros [Hne Hk]%not_elem_of_cons.
  rewrite decide_False by done. by rewrite IH.
Qed.

Lemma dedupe_loop_distinct (l : list FieldDef) (m : JsMap.t) :
  NoDup (keyOf <$> l) →
  (∀ e, e ∈ l → keyOf e ∉ JsMap.keys m) →
  foldl dedupeStep m l = m ++ ((λ e, (keyOf e, cloneField e)) <$> l).
Proof.
  revert m. induction l as [|e l IH]; intros m Hnd Hm; csimpl.
  - by rewrite app_nil_r.
  - apply NoDup_cons in Hnd as [He Hnd].
    assert (keyOf e ∉ JsMap.keys m) as Hfresh by (apply Hm; left).
    unfold dedupeStep at 2. fold (keyOf e).
    rewrite (proj2 (JsMapFacts.get_None m (keyOf e)) Hfresh).
    rewrite JsMap_set_fresh by done. rewrite IH; [by rewrite <- app_assoc|done|].
    intros e' He'. unfold JsMap.keys. rewrite fmap_app. csimpl.
    rewrite not_elem_of_app, not_elem_of_cons. split_and!.
    + apply Hm. by right.
    + intros Heq. apply He. rewrite <- Heq. apply list_elem_of_fmap. by exists e'.
    + apply not_elem_of_nil.
Qed.

Lemma dedupeFields_distinct (l : list FieldDef) :
  NoDup (keyOf <$> l) → dedupeFields l = cloneField <$> l.
Proof.
  intros Hnd. unfold dedupeFields, JsMap.values.
  rewrite dedupe_loop_distinct; [|done|intros; apply not_elem_of_nil].
  simpl. rewrite <- list_fmap_compose. done.
Qed.

Lemma dedupeFields_NoDup_keys fs : NoDup (keyOf <$> dedupeFields fs).
Proof. rewrite dedupeFields_keys. apply JsSetFacts.NoDup_firstSeen. Qed.

Lemma dedupeFields_key_inj fs e e' :
  e ∈ dedupeFields fs → e' ∈ dedupeFields fs → keyOf e = keyOf e' → e = e'.
Proof.
  intros [i Hi]%list_elem_of_lookup [j Hj]%list_elem_of_lookup Heq.
  assert (i = j) as ->; [|congruence].
  eapply NoDup_lookup; [apply (dedupeFields_NoDup_keys fs)| |].
  - rewrite list_lookup_fmap, Hi. reflexivity.
  - rewrite list_lookup_fmap, Hj. simpl. by rewrite Heq.
Qed.

Lemma fmap_fixed {A} (f : A → A) (l : list A) : (∀ x, x ∈ l → f x = x) → f <$> l = l.
Proof.
  induction l as [|x l IH]; intros Hf; csimpl; [done|].
  rewrite Hf by left. f_equal. apply IH. intros y Hy. apply Hf. by right.
Qed.

(** ** The deduplicator: results *)

(** C1. The output of [dedupeFields] holds no two entries whose trimmed,
    lower-cased names are equal, and its entries come in the order in
    which these names first occur in the input. *)
Theorem dedupeFields_distinct_in_first_seen_order (fs : list FieldDef) :
  (∀ i j e1 e2,
     i ≠ j →
     dedupeFields fs !! i = Some e1 →
     dedupeFields fs !! j = Some e2 →
     trimmedLowercase (name e1) ≠ trimmedLowercase (name e2))
  ∧ (λ e, trimmedLowercase (name e)) <$> dedupeFields fs
    = firstSeen ((λ f, trimmedLowercase (name f)) <$> fs).
Proof.
  split.
  - intros i j e1 e2 Hij H1 H2 Heq. apply Hij.
    eapply NoDup_lookup; [exact (dedupeFields_NoDup_keys fs)| |].
    + rewrite list_lookup_fmap, H1. reflexivity.
    + rewrite list_lookup_fmap, H2. simpl. by rewrite !keyOf_spec, Heq.
  - rewrite <- !fmap_keyOf_spec. apply dedupeFields_keys.
Qed.

(** C3, as the code has it.  The occurrences of an entry produced by
    [dedupeFields] are absent exactly when no contributing descriptor has
    any, and have no id that no contributing descriptor has.  An id that
    is no name of [Object.prototype] they have as soon as a contributing
    descriptor has it; and when its counts in the contributing
    descriptors are finite numbers with every running total between
    -2^53 and 2^53, they hold under it the sum of these counts, an absent
    count being 0. *)
Theorem dedupeFields_occurrences_sum :
  (∀ (fs : list FieldDef) (e : FieldDef),
     e ∈ dedupeFields fs →
     let g := contributors e fs in
     (occurrences e = None ↔ Forall (λ f, occurrences f = None) g)
     ∧ ∀ m, occurrences e = Some m →
         ∀ pdf,
           (¬ Exists (mentions pdf) g → m !! pdf = None)
           ∧ (pdf ∉ objectPrototypeKeys →
              Exists (mentions pdf) g →
              is_Some (m !! pdf)
              ∧ (Forall (finiteIn pdf) g →
                 exactTotals (countIn pdf <$> g) →
                 m !! pdf
                 = Some (JsValue.Num (JsNumber.Fin (sumZ (countIn pdf <$> g)))))))
  ∧ mergeOccurrences (occ [("a.pdf", 1)]) (occ [("a.pdf", 2); ("b.pdf", 1)])
    = occ [("a.pdf", 3); ("b.pdf", 1)].
Proof.
  split; [|vm_compute; reflexivity].
  intros fs e He g. unfold g. rewrite contributors_group.
  apply dedupeFields_elem, mergeGroup_occurrences in He as [Hnone Hpt].
  split; [exact Hnone|]. intros m Hm pdf. destruct (Hpt pdf) as [Hinv Hplain].
  assert (valueIn pdf e = m !! pdf) as Hval by (unfold valueIn; by rewrite Hm).
  split.
  - intros Hno. destruct (m !! pdf) eqn:Hl; [|done].
    destruct Hno. apply Hinv, mentions_valueIn. rewrite Hval. by eexists.
  - intros Hpdf Hex. destruct (Hplain Hpdf) as [Hmen Hcnt].
    apply Hmen, mentions_valueIn in Hex as [v Hv]. rewrite <- Hval. split; [by eexists|].
    intros Hfin Htot. destruct (Hcnt Hfin Htot) as [Hfe Hce].
    unfold finiteIn, countIn in Hfe, Hce. rewrite Hv in Hce.
    destruct (Hfe v Hv) as [z ->]. rewrite Hv. by rewrite Hce.
Qed.

(** C4. When duplicates merge, the options are the union of the
    contributing option lists without duplicates in first-seen order:
    over a whole group, the first occurrences of the concatenated lists;
    at one merge step, the stored entries followed by the new entries of
    the later descriptor in their order. *)
Theorem dedupeFields_options_union :
  (∀ (fs : list FieldDef) (e : FieldDef),
     e ∈ dedupeFields fs →
     options e = unionOptions (group (normalizeName (name e)) fs))
  ∧ (∀ (existing f : FieldDef) (stored new : list string),
       options existing = Some stored → NoDup stored → options f = Some new →
       options (mergeField existing f)
       = Some (stored ++ filter (λ o, o ∉ stored) (firstSeen new)))
  ∧ options (mergeField (mkFieldDef "Country" text None (Some ["US"; "CA"]) None)
                        (mkFieldDef "country" text None (Some ["CA"; "MX"]) None))
    = Some ["US"; "CA"; "MX"].
Proof.
  split_and!.
  - intros fs e He. by apply mergeGroup_options, dedupeFields_elem.
  - intros existing f stored new Hs Hnd Hn. rewrite mergeField_options, Hs, Hn. simpl.
    by rewrite JsSetFacts.of_list_app_NoDup.
  - vm_compute. reflexivity.
Qed.

(** C5. [dedupeFields] matches names by their trimmed, lower-cased form:
    every input descriptor is represented by exactly one output entry,
    the one whose name has the same form, so that descriptors whose names
    have one form share an entry and descriptors whose names have
    different forms do not; each output entry has the name (exact casing)
    and the kind of the first input descriptor whose name has its form;
    and names that differ only in case or in surrounding white space have
    one form. *)
Theorem dedupeFields_first_name_and_kind :
  (∀ (fs : list FieldDef) (f : FieldDef),
     f ∈ fs →
     ∃ e, e ∈ dedupeFields fs
          ∧ trimmedLowercase (name e) = trimmedLowercase (name f)
          ∧ ∀ e', e' ∈ dedupeFields fs →
                  trimmedLowercase (name e') = trimmedLowercase (name f) → e' = e)
  ∧ (∀ (fs : list FieldDef) (e : FieldDef),
       e ∈ dedupeFields fs →
       ∃ first later,
         contributors e fs = first :: later
         ∧ name e = name first ∧ kind e = kind first)
  ∧ (∀ a b : string,
       JsString.toLowerCase a = JsString.toLowerCase b →
       trimmedLowercase a = trimmedLowercase b)
  ∧ (∀ l s r : string,
       JsString.isBlank l = true → JsString.isBlank r = true →
       trimmedLowercase (l +:+ s +:+ r) = trimmedLowercase s)
  ∧ dedupeFields [ mkFieldDef "Name" text None None None;
                   mkFieldDef "Age" number None None None;
                   mkFieldDef " name " number (Some true) None None;
                   mkFieldDef "AGE" text None None None ]
    = [ mkFieldDef "Name" text (Some true) None None;
        mkFieldDef "Age" number None None None ].
Proof.
  split_and!; [| |apply trimmedLowercase_case|apply trimmedLowercase_surrounding|
               vm_compute; reflexivity].
  - intros fs f Hf. pose proof (dedupeFields_keys fs) as Hkeys.
    assert (keyOf f ∈ keyOf <$> dedupeFields fs) as Hin.
    { rewrite Hkeys, JsSetFacts.elem_of_firstSeen. apply list_elem_of_fmap. by exists f. }
    apply list_elem_of_fmap in Hin as (e & Hk & He). exists e.
    rewrite !keyOf_spec in Hk. split_and!; [done|done|].
    intros e' He' Hk'. apply (dedupeFields_key_inj fs); [done|done|].
    rewrite !keyOf_spec. congruence.
  - intros fs e He. rewrite contributors_group.
    by apply mergeGroup_head, dedupeFields_elem.
Qed.

(** C9. [dedupeFields] is idempotent. *)
Theorem dedupeFields_idempotent (x : list FieldDef) :
  dedupeFields (dedupeFields x) = dedupeFields x.
Proof.
  rewrite dedupeFields_distinct by apply dedupeFields_NoDup_keys.
  apply fmap_fixed. intros e. apply cloneField_output.
Qed.

(** ** Sorting and the selection signature *)

Section SortFacts.

Variable localeCompare : string → string → comparison.

Lemma sortInsert_Permutation x l : sortInsert localeCompare x l ≡ₚ x :: l.
Proof.
  induction l as [|y l IH]; simpl; [done|].
  destruct (localeCompare x y); [done|done|].
  rewrite IH. apply Permutation_swap.
Qed.

Lemma sort_Permutation l : sort localeCompare l ≡ₚ l.
Proof.
  induction l as [|x l IH]; simpl; [done|].
  fold (sort localeCompare l). by rewrite sortInsert_Permutation, IH.
Qed.

Lemma sort_nil_inv l : sort localeCompare l = [] → l = [].
Proof.
  intros H. apply Permutation_nil_r. rewrite <- H. symmetry. apply sort_Permutation.
Qed.

Lemma sort_singleton_inv l x : sort localeCompare l = [x] → l = [x].
Proof.
  intros H. apply Permutation_singleton_r. rewrite <- H. symmetry. apply sort_Permutation.
Qed.

Lemma sort_singleton x : sort localeCompare [x] = [x].
Proof. reflexivity. Qed.

(** What the sort needs to have one answer for every order of its input
    is asked of the comparison on the ids sorted only: on [ids] it is a
    strict total order. *)
Variable ids : list string.
Hypothesis ids_ordered : ordersStrictly localeCompare ids.

Lemma ordered_antisym x y :
  x ∈ ids → y ∈ ids → localeCompare y x = CompOpp (localeCompare x y).
Proof. apply ids_ordered. Qed.

Lemma ordered_eq x y : x ∈ ids → y ∈ ids → localeCompare x y = Eq → x = y.
Proof. apply ids_ordered. Qed.

Lemma ordered_trans x y z :
  x ∈ ids → y ∈ ids → z ∈ ids →
  localeCompare x y = Lt → localeCompare y z = Lt → localeCompare x z = Lt.
Proof. apply ids_ordered. Qed.

Lemma ordered_Gt_Lt x y :
  x ∈ ids → y ∈ ids → localeCompare x y = Gt → localeCompare y x = Lt.
Proof. intros Hx Hy H. by rewrite (ordered_antisym x y Hx Hy), H. Qed.

Lemma ordered_Lt_Gt x y :
  x ∈ ids → y ∈ ids → localeCompare x y = Lt → localeCompare y x = Gt.
Proof. intros Hx Hy H. by rewrite (ordered_antisym x y Hx Hy), H. Qed.

Lemma ordered_irrefl x : x ∈ ids → localeCompare x x ≠ Lt.
Proof.
  intros Hx H. pose proof (ordered_antisym x x Hx Hx) as Ha. rewrite H in Ha. discriminate.
Qed.

(** Closes a goal whose hypotheses order some of the ids in a cycle. *)
Ltac order_cycle :=
  repeat match goal with
    | H : localeCompare ?a ?b = Eq, Ha : ?a ∈ ids, Hb : ?b ∈ ids |- _ =>
        apply (ordered_eq a b Ha Hb) in H; subst
    end;
  repeat match goal with
    | H : localeCompare ?a ?b = Gt, Ha : ?a ∈ ids, Hb : ?b ∈ ids |- _ =>
        apply (ordered_Gt_Lt a b Ha Hb) in H
    end;
  match goal with
  | H : localeCompare ?a ?a = Lt, Ha : ?a ∈ ids |- _ => destruct (ordered_irrefl a Ha H)
  | H1 : localeCompare ?a ?b = Lt, H2 : localeCompare ?b ?a = Lt,
    Ha : ?a ∈ ids, Hb : ?b ∈ ids |- _ =>
      destruct (ordered_irrefl a Ha (ordered_trans _ _ _ Ha Hb Ha H1 H2))
  | H1 : localeCompare ?a ?b = Lt, H2 : localeCompare ?b ?c = Lt,
    H3 : localeCompare ?c ?a = Lt,
    Ha : ?a ∈ ids, Hb : ?b ∈ ids, Hc : ?c ∈ ids |- _ =>
      destruct (ordered_irrefl a Ha
                  (ordered_trans _ _ _ Ha Hc Ha
                     (ordered_trans _ _ _ Ha Hb Hc H1 H2) H3))
  end.

Lemma sortInsert_comm x y l :
  x ∈ ids → y ∈ ids → Forall (λ z, z ∈ ids) l →
  sortInsert localeCompare x (sortInsert localeCompare y l)
  = sortInsert localeCompare y (sortInsert localeCompare x l).
Proof.
  intros Hx Hy Hl. destruct (localeCompare x y) eqn:Hxy.
  { apply (ordered_eq x y Hx Hy) in Hxy as ->. reflexivity. }
  all: pose proof Hxy as Hyx;
    first [apply (ordered_Lt_Gt x y Hx Hy) in Hyx|apply (ordered_Gt_Lt x y Hx Hy) in Hyx].
  all: induction Hl as [|z l Hz Hl IH]; simpl; [by rewrite Hxy, Hyx|].
  all: destruct (localeCompare x z) eqn:Hxz, (localeCompare y z) eqn:Hyz;
    repeat (progress (simpl; rewrite ?Hxy, ?Hyx, ?Hxz, ?Hyz, ?IH));
    first [reflexivity | exfalso; clear IH Hl; order_cycle].
Qed.

Lemma sortInsert_ids x l :
  x ∈ ids → Forall (λ z, z ∈ ids) l → Forall (λ z, z ∈ ids) (sortInsert localeCompare x l).
Proof. intros Hx Hl. rewrite sortInsert_Permutation. by constructor. Qed.

Lemma sort_ids l : Forall (λ z, z ∈ ids) l → Forall (λ z, z ∈ ids) (sort localeCompare l).
Proof. by rewrite sort_Permutation. Qed.

(** The result of [sort] is in order. *)
Lemma sortInsert_Sorted x l :
  x ∈ ids → Forall (λ z, z ∈ ids) l →
  Sorted (λ a b, localeCompare a b ≠ Gt) l →
  Sorted (λ a b, localeCompare a b ≠ Gt) (sortInsert localeCompare x l).
Proof.
  intros Hx Hids. induction 1 as [|y l Hl IH Hhd]; simpl.
  - by repeat constructor.
  - apply Forall_cons in Hids as [Hy Hids]. destruct (localeCompare x y) eqn:Hxy.
    + repeat constructor; [done|done|congruence].
    + repeat constructor; [done|done|congruence].
    + constructor; [by apply IH|].
      destruct l as [|z l]; simpl.
      * constructor. rewrite (ordered_Gt_Lt _ _ Hx Hy Hxy). discriminate.
      * apply HdRel_inv in Hhd.
        destruct (localeCompare x z); constructor; try done;
          rewrite (ordered_Gt_Lt _ _ Hx Hy Hxy); discriminate.
Qed.

Lemma sort_Sorted l :
  Forall (λ z, z ∈ ids) l → Sorted (λ a b, localeCompare a b ≠ Gt) (sort localeCompare l).
Proof.
  induction 1 as [|x l Hx Hl IH]; simpl; [constructor|].
  apply sortInsert_Sorted; [done|by apply sort_ids|done].
Qed.

Lemma sort_Permutation_eq l1 l2 :
  Forall (λ z, z ∈ ids) l1 → l1 ≡ₚ l2 → sort localeCompare l1 = sort localeCompare l2.
Proof.
  intros Hids Hperm. induction Hperm as [|x l1 l2 _ IH|x y l|l1 l2 l3 Hp1 IH1 _ IH2]; simpl.
  - done.
  - apply Forall_cons in Hids as [_ Hids].
    fold (sort localeCompare l1). fold (sort localeCompare l2). by rewrite IH.
  - apply Forall_cons in Hids as [Hy [Hx Hids]%Forall_cons].
    apply sortInsert_comm; [done|done|by apply sort_ids].
  - rewrite IH1 by done. apply IH2. by rewrite <- Hp1.
Qed.

End SortFacts.

(** Two orders of the same ids have one signature, when the comparison
    orders these ids strictly. *)
Lemma selectionSignature_Permutation localeCompare l1 l2 :
  ordersStrictly localeCompare l1 → l1 ≡ₚ l2 →
  selectionSignature localeCompare l1 = selectionSignature localeCompare l2.
Proof.
  intros Hord Hperm. unfold selectionSignature.
  rewrite (sort_Permutation_eq localeCompare l1 Hord l1 l2); [done| |done].
  by apply Forall_forall.
Qed.

(** C6, as the code has it.  The signature is the same for any two lists
    that are permutations of each other, when the comparison orders their
    ids strictly: the order of the ids does not matter, their
    multiplicities do. *)
Theorem selectionSignature_order_independent
    (localeCompare : string → string → comparison) :
  (∀ l1 l2 : list string,
     ordersStrictly localeCompare l1 → l1 ≡ₚ l2 →
     selectionSignature localeCompare l1 = selectionSignature localeCompare l2)
  ∧ (ordersStrictly localeCompare ["b"; "a"] →
     selectionSignature localeCompare ["b"; "a"] = selectionSignature localeCompare ["a"; "b"]).
Proof.
  split.
  - intros l1 l2 Hord Hperm. unfold selectionSignature. f_equal.
    apply (sort_Permutation_eq localeCompare l1 Hord); [|done].
    by apply Forall_forall.
  - intros Hord. unfold selectionSignature. f_equal.
    apply (sort_Permutation_eq localeCompare ["b"; "a"] Hord); [by apply Forall_forall|].
    apply Permutation_swap.
Qed.

Lemma join_empty_inv l : JsString.join "||" l = EmptyString → l = [] ∨ l = [EmptyString].
Proof.
  destruct l as [|x [|y l]]; simpl; [by left|intros ->; by right|].
  destruct x; discriminate.
Qed.

Lemma selectionSignature_empty_inv localeCompare pdfs :
  selectionSignature localeCompare pdfs = EmptyString → pdfs = [] ∨ pdfs = [EmptyString].
Proof.
  intros [H|H]%join_empty_inv.
  - left. by eapply sort_nil_inv.
  - right. by eapply sort_singleton_inv.
Qed.

(** Code-unit order is a total order that tells distinct strings apart. *)
Lemma codeUnitCompare_antisym x y : codeUnitCompare y x = CompOpp (codeUnitCompare x y).
Proof.
  unfold codeUnitCompare.
  destruct (String_as_OT.compare_spec x y) as [Heq|Hlt|Hlt];
    destruct (String_as_OT.compare_spec y x) as [Heq'|Hlt'|Hlt']; simpl; try done;
    exfalso; unfold String_as_OT.eq in *; subst;
    match goal with
    | H : String_as_OT.lt ?a ?a |- _ =>
        by apply (StrictOrder_Irreflexive (R := String_as_OT.lt) a)
    | H1 : String_as_OT.lt ?a ?b, H2 : String_as_OT.lt ?b ?a |- _ =>
        by apply (StrictOrder_Irreflexive (R := String_as_OT.lt) a),
                 (StrictOrder_Transitive (R := String_as_OT.lt) a b a)
    end.
Qed.

Lemma codeUnitCompare_eq x y : codeUnitCompare x y = Eq → x = y.
Proof.
  unfold codeUnitCompare. by destruct (String_as_OT.compare_spec x y).
Qed.

Lemma codeUnitCompare_refl x : codeUnitCompare x x = Eq.
Proof.
  pose proof (codeUnitCompare_antisym x x) as H.
  by destruct (codeUnitCompare x x).
Qed.

Lemma codeUnitCompare_trans x y z :
  codeUnitCompare x y = Lt → codeUnitCompare y z = Lt → codeUnitCompare x z = Lt.
Proof. apply (StrictOrder_Transitive (R := String_as_OT.lt)). Qed.

Lemma codeUnitCompare_ordersStrictly l : ordersStrictly codeUnitCompare l.
Proof.
  split_and!.
  - intros x y _ _. apply codeUnitCompare_antisym.
  - intros x y _ _. apply codeUnitCompare_eq.
  - intros x y z _ _ _. apply codeUnitCompare_trans.
Qed.

(** The comparison that ignores control characters is consistent: it is
    a total preorder. *)
Lemma ignoringControls_consistent :
  (∀ x y, ignoringControls y x = CompOpp (ignoringControls x y))
  ∧ (∀ x y z,
       ignoringControls x y = Lt → ignoringControls y z = Lt → ignoringControls x z = Lt)
  ∧ (∀ x y z, ignoringControls x y = Eq → ignoringControls x z = ignoringControls y z).
Proof.
  unfold ignoringControls. split_and!.
  - intros x y. apply codeUnitCompare_antisym.
  - intros x y z. apply codeUnitCompare_trans.
  - intros x y z Heq. by rewrite (codeUnitCompare_eq _ _ Heq).
Qed.

(** ** The selection store: what one call does *)

Lemma readCache_own (cache : gmap string (list FieldDef)) sig cached :
  cache !! sig = Some cached → readCache cache sig = Some (Fields cached).
Proof. intros H. unfold readCache. by rewrite H. Qed.

Lemma readCache_None (cache : gmap string (list FieldDef)) sig :
  readCache cache sig = None ↔ cache !! sig = None ∧ sig ∉ objectPrototypeKeys.
Proof.
  unfold readCache. destruct (cache !! sig); [split; [done|by intros [? _]]|].
  case_bool_decide; split; try done. by intros [_ ?].
Qed.

Lemma readCache_Some (cache : gmap string (list FieldDef)) sig found :
  readCache cache sig = Some found ↔
  (∃ cached, cache !! sig = Some cached ∧ found = Fields cached)
  ∨ (cache !! sig = None ∧ sig ∈ objectPrototypeKeys ∧ found = InheritedMember sig).
Proof.
  unfold readCache. destruct (cache !! sig) as [cached|].
  - split.
    + intros [= <-]. left. by exists cached.
    + intros [(c & [= <-] & ->)|(? & _)]; done.
  - case_bool_decide; split.
    + intros [= <-]. by right.
    + intros [(c & ? & _)|(_ & _ & ->)]; done.
    + done.
    + intros [(c & ? & _)|(_ & ? & _)]; done.
Qed.

Lemma readCache_plain (cache : gmap string (list FieldDef)) sig :
  sig ∉ objectPrototypeKeys → readCache cache sig = Fields <$> cache !! sig.
Proof.
  intros Hsig. unfold readCache. destruct (cache !! sig); [done|].
  by rewrite bool_decide_eq_false_2.
Qed.

Lemma empty_not_inherited : EmptyString ∉ objectPrototypeKeys.
Proof.
  unfold objectPrototypeKeys. intros H.
  repeat (apply elem_of_cons in H as [H|H]; [discriminate H|]).
  by apply elem_of_nil in H.
Qed.

Section StoreFacts.

Variable localeCompare : string → string → comparison.
Variable service : nat → list string → ServiceResult.

(** The four ways through [fetchCombinedFields]: cache hit, empty
    selection, rejected request, resolved request. *)
Lemma fetchCombinedFields_unfold (w : World) :
  fetchCombinedFields localeCompare service w
  = let s := store w in
    let pdfs := selectedPdfs s in
    let sig := selectionSignature localeCompare pdfs in
    match readCache (fieldsCache s) sig with
    | Some cached => (Normal tt, mkWorld (with_combinedFields cached s) (calls w))
    | None =>
        if (length pdfs =? 0)%nat
        then (Normal tt, mkWorld (with_combinedFields (Fields []) s) (calls w))
        else
          match service (length (calls w)) pdfs with
          | inl e =>
              (Throw e, mkWorld (with_isLoadingFields false s)
                                (calls w ++ [(pdfs, inl e)]))
          | inr res =>
              let deduped := dedupeFields (fields res) in
              (Normal tt,
               mkWorld (with_isLoadingFields false
                          (with_fieldsCache (<[sig := deduped]> (fieldsCache s))
                             (with_combinedFields (Fields deduped) s)))
                       (calls w ++ [(pdfs, inr res)]))
          end
    end.
Proof.
  destruct w as [s log]. destruct s. cbv zeta.
  unfold fetchCombinedFields, mbind, Action_bind, Zustand.get, Zustand.set,
    try_finally, getCombinedFields. simpl.
  destruct (readCache _ _); [done|].
  destruct (length _ =? 0)%nat; [done|]. simpl.
  destruct (service _ _); done.
Qed.

Lemma setSelectedPdfs_unfold (pdfs : list string) (w : World) :
  setSelectedPdfs localeCompare service pdfs w
  = fetchCombinedFields localeCompare service
      (mkWorld (with_selectedPdfs pdfs (store w)) (calls w)).
Proof. done. Qed.

Lemma reset_unfold (w : World) :
  reset w = (Normal tt, mkWorld initialState (calls w)).
Proof. done. Qed.

Lemma run_snoc cs c w :
  run localeCompare service (cs ++ [c]) w
  = (runCall localeCompare service c (run localeCompare service cs w)).2.
Proof. unfold run. by rewrite foldl_snoc. Qed.

Lemma run_select pdfs w :
  run localeCompare service [CallSetSelectedPdfs pdfs] w
  = (setSelectedPdfs localeCompare service pdfs w).2.
Proof. reflexivity. Qed.

(** From here on the two parameters are left out. *)
Local Abbreviation selectionSignature := (selectionSignature localeCompare).
Local Abbreviation fetchCombinedFields := (fetchCombinedFields localeCompare service).
Local Abbreviation setSelectedPdfs := (setSelectedPdfs localeCompare service).
Local Abbreviation runCall := (runCall localeCompare service).
Local Abbreviation run := (run localeCompare service).

(** *** Combined field sets in the store *)

Lemma isCombinedFieldSet_nil : isCombinedFieldSet [].
Proof. split; [constructor|by left]. Qed.

Lemma isCombinedFieldSet_dedupe raw : isCombinedFieldSet (dedupeFields raw).
Proof.
  split; [|right; by exists raw].
  rewrite <- fmap_keyOf_spec. apply dedupeFields_NoDup_keys.
Qed.

Lemma storeDeduped_initial : storeDeduped initialState.
Proof. split; [apply isCombinedFieldSet_nil|apply map_Forall_empty]. Qed.

Lemma fetchCombinedFields_deduped w :
  storeDeduped (store w) → storeDeduped (store (fetchCombinedFields w).2).
Proof.
  intros [Hc Hm]. rewrite fetchCombinedFields_unfold. cbv zeta.
  destruct (readCache (fieldsCache (store w)) _) as [found|] eqn:Hsig.
  - split; [|done]. simpl.
    apply readCache_Some in Hsig as [(cached & Hown & ->)|(_ & Hin & ->)]; [|done].
    by apply (Hm _ _ Hown).
  - destruct (length _ =? 0)%nat.
    + split; [apply isCombinedFieldSet_nil|done].
    + destruct (service _ _) as [e|res]; [done|]. split; simpl.
      * apply isCombinedFieldSet_dedupe.
      * apply map_Forall_insert_2; [apply isCombinedFieldSet_dedupe|done].
Qed.

Lemma runCall_deduped c w :
  storeDeduped (store w) → storeDeduped (store (runCall c w).2).
Proof.
  intros Hw. destruct c as [pdfs| |]; simpl.
  - rewrite setSelectedPdfs_unfold. by apply fetchCombinedFields_deduped.
  - by apply fetchCombinedFields_deduped.
  - apply storeDeduped_initial.
Qed.

(** In every store reached from the initial one, every cached value is a
    combined field set, and [combinedFields] is one unless it is a member
    inherited from [Object.prototype]. *)
Lemma run_deduped (cs : list Call) : storeDeduped (store (run cs initialWorld)).
Proof.
  induction cs as [|c cs IH] using rev_ind.
  - apply storeDeduped_initial.
  - rewrite run_snoc. by apply runCall_deduped.
Qed.

(** *** The request log and the cache *)

Lemma fetchedOnce_snoc log q settled :
  fetchedOnce localeCompare log →
  (∀ p res, (p, inr res) ∈ log → selectionSignature p ≠ selectionSignature q) →
  fetchedOnce localeCompare (log ++ [(q, settled)]).
Proof.
  intros Hlog Hq i j p res q' settled' Hij Hi Hj.
  assert (j < length (log ++ [(q, settled)]))%nat as Hlen by by eapply lookup_lt_Some.
  rewrite length_app in Hlen. simpl in Hlen.
  assert (i < length log)%nat as Hil by (clear -Hij Hlen; lia).
  rewrite lookup_app_l in Hi by done.
  destruct (decide (j < length log)%nat) as [Hlt|Hge].
  - rewrite lookup_app_l in Hj by done. exact (Hlog i j p res q' settled' Hij Hi Hj).
  - assert (j = length log) as -> by (clear -Hlen Hge; lia).
    rewrite lookup_app_r, Nat.sub_diag in Hj by done. injection Hj as <- <-.
    eapply Hq. by eapply list_elem_of_lookup_2.
Qed.

Lemma fetchCombinedFields_log base log w :
  calls w = base ++ log →
  cacheCovers localeCompare log (store w) →
  fetchedOnce localeCompare log →
  ∃ log',
    calls (fetchCombinedFields w).2 = base ++ log'
    ∧ cacheCovers localeCompare log' (store (fetchCombinedFields w).2)
    ∧ fetchedOnce localeCompare log'.
Proof.
  intros Hcalls Hcov Honce. rewrite fetchCombinedFields_unfold. cbv zeta.
  destruct (readCache (fieldsCache (store w)) _) as [found|] eqn:Hsig.
  { by exists log. }
  apply readCache_None in Hsig as [Hsig _].
  destruct (length _ =? 0)%nat.
  { by exists log. }
  assert (∀ p res, (p, inr res) ∈ log →
            selectionSignature p ≠ selectionSignature (selectedPdfs (store w))) as Hfresh.
  { intros p res Hin Heq. apply Hcov in Hin. rewrite Heq in Hin. congruence. }
  destruct (service _ _) as [e|res]; simpl.
  - exists (log ++ [(selectedPdfs (store w), inl e)]). split_and!.
    + by rewrite Hcalls, app_assoc.
    + intros p res [Hin|Hin]%elem_of_app; [by apply Hcov|].
      apply list_elem_of_singleton in Hin. congruence.
    + by apply fetchedOnce_snoc.
  - exists (log ++ [(selectedPdfs (store w), inr res)]). split_and!.
    + by rewrite Hcalls, app_assoc.
    + intros p res' [Hin|Hin]%elem_of_app; simpl.
      * rewrite lookup_insert_ne; [by apply Hcov|]. intros Heq. by eapply Hfresh.
      * apply list_elem_of_singleton in Hin. injection Hin as -> ->.
        by rewrite lookup_insert_eq.
    + by apply fetchedOnce_snoc.
Qed.

Lemma run_log cs w0 :
  Forall (λ c, isReset c = false) cs →
  ∃ log,
    calls (run cs w0) = calls w0 ++ log
    ∧ cacheCovers localeCompare log (store (run cs w0))
    ∧ fetchedOnce localeCompare log.
Proof.
  induction cs as [|c cs IH] using rev_ind; intros Hcs.
  - exists []. split_and!.
    + by rewrite app_nil_r.
    + intros p res Hin. by apply elem_of_nil in Hin.
    + intros i j p res q settled _ Hi. by rewrite lookup_nil in Hi.
  - apply Forall_app in Hcs as [Hcs Hc]. rewrite Forall_singleton in Hc.
    destruct (IH Hcs) as (log & Hcalls & Hcov & Honce). rewrite run_snoc.
    destruct c as [pdfs| |]; [| |discriminate Hc]; simpl.
    + rewrite setSelectedPdfs_unfold.
      by apply (fetchCombinedFields_log (calls w0) log).
    + by apply (fetchCombinedFields_log (calls w0) log).
Qed.

(** *** The empty signature *)

Lemma selectionSignature_nil : selectionSignature [] = EmptyString.
Proof. reflexivity. Qed.

Lemma selectionSignature_singleton x : selectionSignature [x] = x.
Proof. reflexivity. Qed.

Lemma fetchCombinedFields_empty_signature w :
  selectedPdfs (store w) ≠ [EmptyString] →
  fieldsCache (store w) !! EmptyString = None →
  selectedPdfs (store (fetchCombinedFields w).2) ≠ [EmptyString]
  ∧ fieldsCache (store (fetchCombinedFields w).2) !! EmptyString = None.
Proof.
  intros Hsel Hcache. rewrite fetchCombinedFields_unfold. cbv zeta.
  destruct (readCache (fieldsCache (store w)) (selectionSignature (selectedPdfs (store w))))
    as [found|] eqn:Hsig; [done|].
  destruct (length (selectedPdfs (store w)) =? 0)%nat eqn:Hlen; [done|].
  destruct (service _ _) as [e|res]; [done|]. simpl. split; [done|].
  rewrite lookup_insert_ne; [done|].
  intros [Hnil|?]%selectionSignature_empty_inv; [|done].
  rewrite Hnil in Hlen. discriminate.
Qed.

Lemma run_empty_signature cs w0 :
  selectedPdfs (store w0) ≠ [EmptyString] →
  fieldsCache (store w0) !! EmptyString = None →
  Forall (λ c, c ≠ CallSetSelectedPdfs [EmptyString]) cs →
  selectedPdfs (store (run cs w0)) ≠ [EmptyString]
  ∧ fieldsCache (store (run cs w0)) !! EmptyString = None.
Proof.
  intros Hsel Hcache. induction cs as [|c cs IH] using rev_ind; intros Hcs; [done|].
  apply Forall_app in Hcs as [Hcs Hc]. rewrite Forall_singleton in Hc.
  destruct (IH Hcs) as [IHsel IHcache]. rewrite run_snoc.
  destruct c as [pdfs| |]; simpl.
  - rewrite setSelectedPdfs_unfold. apply fetchCombinedFields_empty_signature; [|done].
    simpl. congruence.
  - by apply fetchCombinedFields_empty_signature.
  - done.
Qed.

(** In every store, [setSelectedPdfs([])] completes normally, sends no
    request and leaves the cache as it is; [combinedFields] becomes the
    cache entry under the empty signature if there is one, and the empty
    list otherwise. *)
Lemma setSelectedPdfs_empty_selection (w : World) :
  ∃ w', setSelectedPdfs [] w = (Normal tt, w')
        ∧ selectedPdfs (store w') = []
        ∧ calls w' = calls w
        ∧ fieldsCache (store w') = fieldsCache (store w)
        ∧ combinedFields (store w')
          = Fields (default [] (fieldsCache (store w) !! EmptyString)).
Proof.
  rewrite setSelectedPdfs_unfold, fetchCombinedFields_unfold. cbv zeta. simpl.
  rewrite selectionSignature_nil, (readCache_plain _ _ empty_not_inherited).
  destruct (fieldsCache (store w) !! EmptyString); eexists; split_and!; reflexivity.
Qed.

(** No entry gets under the empty signature as long as the one-element
    list of the empty id is never selected. *)
Lemma run_no_empty_signature (cs : list Call) :
  Forall (λ c, c ≠ CallSetSelectedPdfs [EmptyString]) cs →
  fieldsCache (store (run cs initialWorld)) !! EmptyString = None.
Proof. intros Hcs. by apply run_empty_signature. Qed.

(** *** The selection store: results *)

(** C7, where the code parts from it.  [[]] and [[""]] have one
    signature, the empty string, and [fetchCombinedFields] reads the
    cache before it tests [pdfs.length === 0].  So once the fields of the
    selection [[""]] are cached, [setSelectedPdfs([])] shows these fields
    and not the empty list; it sends no request and leaves the cache as
    it is. *)
Theorem empty_selection_served_from_cache (res : CombinedFieldsResponse) :
  service 0%nat [EmptyString] = inr res →
  let w := run [CallSetSelectedPdfs [EmptyString]] initialWorld in
  ∃ w', setSelectedPdfs [] w = (Normal tt, w')
        ∧ selectedPdfs (store w') = []
        ∧ combinedFields (store w') = Fields (dedupeFields (fields res))
        ∧ calls w' = calls w
        ∧ fieldsCache (store w') = fieldsCache (store w).
Proof.
  intros Hres w.
  assert (fieldsCache (store w) !! EmptyString = Some (dedupeFields (fields res))) as Hw.
  { unfold w. rewrite run_select, setSelectedPdfs_unfold, fetchCombinedFields_unfold.
    cbv zeta. simpl. rewrite selectionSignature_singleton.
    rewrite (readCache_plain _ _ empty_not_inherited), lookup_empty, Hres. simpl.
    by rewrite lookup_insert_eq. }
  destruct (setSelectedPdfs_empty_selection w) as (w' & Hrun & Hsel & Hcalls & Hcache & Hf).
  exists w'. rewrite Hw in Hf. by split_and!.
Qed.

(** C8. When the request sent by [fetchCombinedFields] is rejected, the
    error reaches the caller unchanged, [isLoadingFields] is false
    afterwards, [combinedFields] and [fieldsCache] are what they were,
    and the request was sent once.  The request is sent when the read of
    the cache finds nothing and the selection is not empty. *)
Theorem fetchCombinedFields_rejected (w : World) (e : ApiError) :
  readCache (fieldsCache (store w)) (selectionSignature (selectedPdfs (store w))) = None →
  selectedPdfs (store w) ≠ [] →
  service (length (calls w)) (selectedPdfs (store w)) = inl e →
  ∃ w', fetchCombinedFields w = (Throw e, w')
        ∧ isLoadingFields (store w') = false
        ∧ combinedFields (store w') = combinedFields (store w)
        ∧ fieldsCache (store w') = fieldsCache (store w)
        ∧ calls w' = calls w ++ [(selectedPdfs (store w), inl e)].
Proof.
  intros Hcache Hsel Hrej. rewrite fetchCombinedFields_unfold. cbv zeta.
  rewrite Hcache, Hrej. destruct (selectedPdfs (store w)); [done|]. simpl.
  eexists. split_and!; reflexivity.
Qed.

(** C10, where the code parts from it.  The cache is a plain object, and
    the read [fieldsCache[sig]] finds the members inherited from
    [Object.prototype].  From the initial store
    [setSelectedPdfs(["constructor"])] therefore takes the branch of the
    cache hit: it sends no request, whatever the service would answer,
    and leaves in [combinedFields] the inherited member [constructor],
    which is no list of fields. *)
Theorem inherited_member_served_as_fields :
  run [CallSetSelectedPdfs ["constructor"]] initialWorld
  = mkWorld (with_combinedFields (InheritedMember "constructor")
               (with_selectedPdfs ["constructor"] initialState))
            []
  ∧ ∀ l, combinedFields (store (run [CallSetSelectedPdfs ["constructor"]] initialWorld))
         ≠ Fields l.
Proof.
  assert (run [CallSetSelectedPdfs ["constructor"]] initialWorld
          = mkWorld (with_combinedFields (InheritedMember "constructor")
                       (with_selectedPdfs ["constructor"] initialState))
                    []) as Hrun.
  { rewrite run_select, setSelectedPdfs_unfold, fetchCombinedFields_unfold.
    cbv zeta. simpl. rewrite selectionSignature_singleton.
    assert (readCache ∅ "constructor" = Some (InheritedMember "constructor")) as ->;
      [|done].
    apply readCache_Some. right. split_and!; [done| |done].
    unfold objectPrototypeKeys. left. }
  split; [exact Hrun|]. intros l. by rewrite Hrun.
Qed.

End StoreFacts.

Section CacheFacts.

Variable localeCompare : string → string → comparison.
Variable service : nat → list string → ServiceResult.

(** C2, as the code has it.  Over any sequence of [setSelectedPdfs] and
    [fetchCombinedFields] calls, from any store (the initial one and any
    store after [reset] among them): once a request has resolved, no
    later request has its selection signature, so at most one request
    per signature resolves; and [setSelectedPdfs] with a selection of the
    same signature as one whose request resolved (any permutation of it
    among them, when the comparison orders its ids strictly) sets
    [combinedFields] from the cache and sends nothing.  A rejected
    request leaves nothing in the cache. *)
Theorem resolved_selections_are_served_from_cache (cs : list Call) (w0 : World) :
  Forall (λ c, isReset c = false) cs →
  let w := run localeCompare service cs w0 in
  ∃ log,
    calls w = calls w0 ++ log
    ∧ fetchedOnce localeCompare log
    ∧ ∀ pdfs res pdfs',
        (pdfs, inr res) ∈ log →
        selectionSignature localeCompare pdfs' = selectionSignature localeCompare pdfs
        ∨ (ordersStrictly localeCompare pdfs ∧ pdfs ≡ₚ pdfs') →
        ∃ w', setSelectedPdfs localeCompare service pdfs' w = (Normal tt, w')
              ∧ combinedFields (store w') = Fields (dedupeFields (fields res))
              ∧ calls w' = calls w.
Proof.
  intros Hcs w. destruct (run_log localeCompare service cs w0 Hcs)
    as (log & Hcalls & Hcov & Honce).
  exists log. split_and!; [done|done|].
  intros pdfs res pdfs' Hin Hsame.
  assert (selectionSignature localeCompare pdfs' = selectionSignature localeCompare pdfs)
    as Hsig.
  { destruct Hsame as [?|[Hord Hperm]]; [done|].
    symmetry. by apply selectionSignature_Permutation. }
  rewrite setSelectedPdfs_unfold, fetchCombinedFields_unfold. cbv zeta. simpl.
  fold w in Hcov. rewrite Hsig, (readCache_own _ _ _ (Hcov pdfs res Hin)).
  eexists. split_and!; reflexivity.
Qed.

End CacheFacts.

(** ** The store test of [useFormStore.test.ts] *)

Example test_caches_per_signature :
  let first :=
    run codeUnitCompare mockService
      [CallSetSelectedPdfs ["a.pdf"; "b.pdf"]] initialWorld in
  let second :=
    run codeUnitCompare mockService
      [CallSetSelectedPdfs ["a.pdf"; "b.pdf"]; CallSetSelectedPdfs ["b.pdf"; "a.pdf"]]
      initialWorld in
  length (calls second) = 1%nat
  ∧ combinedFields (store first) = Fields fieldsA
  ∧ combinedFields (store second) = Fields fieldsA.
Proof. vm_compute. done. Qed.

Example test_signature_order_independent :
  selectionSignature codeUnitCompare ["b.pdf"; "a.pdf"]
  = selectionSignature codeUnitCompare ["a.pdf"; "b.pdf"].
Proof. reflexivity. Qed.

(** ** Instances *)

Lemma not_inherited_decide pdf :
  bool_decide (pdf ∈ objectPrototypeKeys) = false → pdf ∉ objectPrototypeKeys.
Proof. apply bool_decide_eq_false_1. Qed.

Lemma dedupeFields_distinct_in_first_seen_order_witness :
  dedupeFields [ mkFieldDef "Name" text None None None;
                 mkFieldDef "Age" number None None None;
                 mkFieldDef " name " number None None None ] !! 0%nat
  = Some (mkFieldDef "Name" text None None None)
  ∧ dedupeFields [ mkFieldDef "Name" text None None None;
                   mkFieldDef "Age" number None None None;
                   mkFieldDef " name " number None None None ] !! 1%nat
    = Some (mkFieldDef "Age" number None None None)
  ∧ trimmedLowercase "Name" ≠ trimmedLowercase "Age".
Proof.
  split_and!; [reflexivity|reflexivity|].
  apply (proj1 (dedupeFields_distinct_in_first_seen_order
                  [ mkFieldDef "Name" text None None None;
                    mkFieldDef "Age" number None None None;
                    mkFieldDef " name " number None None None ])
           0%nat 1%nat
           (mkFieldDef "Name" text None None None)
           (mkFieldDef "Age" number None None None));
    [discriminate|reflexivity|reflexivity].
Defined.

Lemma dedupeFields_occurrences_sum_witness :
  mkFieldDef "Name" text None None (occ [("a.pdf", 3); ("b.pdf", 1)])
  ∈ dedupeFields [ mkFieldDef "Name" text None None (occ [("a.pdf", 1)]);
                   mkFieldDef "name" text None None (occ [("a.pdf", 2); ("b.pdf", 1)]) ]
  ∧ (list_to_map [("a.pdf", JsValue.Num (JsNumber.Fin 3));
                  ("b.pdf", JsValue.Num (JsNumber.Fin 1))] : gmap string JsValue.t)
      !! "a.pdf"
    = Some (JsValue.Num (JsNumber.Fin (sumZ [1; 2]))).
Proof.
  split; [vm_compute; left|].
  refine (proj2 (proj2 (proj2 (proj1 dedupeFields_occurrences_sum
    [ mkFieldDef "Name" text None None (occ [("a.pdf", 1)]);
      mkFieldDef "name" text None None (occ [("a.pdf", 2); ("b.pdf", 1)]) ]
    (mkFieldDef "Name" text None None (occ [("a.pdf", 3); ("b.pdf", 1)]))
    _) _ eq_refl "a.pdf") _ _) _ _).
  - vm_compute. left.
  - apply not_inherited_decide. vm_compute. reflexivity.
  - vm_compute. left. eexists. split; [reflexivity|]. by eexists.
  - vm_compute. repeat constructor; intros v [= <-]; by eexists.
  - intros [|[|[|k]]]; vm_compute; split; discriminate.
Defined.

Lemma dedupeFields_options_union_witness :
  mkFieldDef "Country" text None (Some ["US"; "CA"; "MX"]) None
  ∈ dedupeFields [ mkFieldDef "Country" text None (Some ["US"; "CA"]) None;
                   mkFieldDef "country" text None (Some ["CA"; "MX"]) None ]
  ∧ Some ["US"; "CA"; "MX"]
    = unionOptions [ mkFieldDef "Country" text None (Some ["US"; "CA"]) None;
                     mkFieldDef "country" text None (Some ["CA"; "MX"]) None ].
Proof.
  split; [vm_compute; left|].
  refine (proj1 dedupeFields_options_union
    [ mkFieldDef "Country" text None (Some ["US"; "CA"]) None;
      mkFieldDef "country" text None (Some ["CA"; "MX"]) None ]
    (mkFieldDef "Country" text None (Some ["US"; "CA"; "MX"]) None) _).
  vm_compute. left.
Defined.

Lemma dedupeFields_first_name_and_kind_witness :
  mkFieldDef " name " number (Some true) None None
  ∈ [ mkFieldDef "Name" text None None None;
      mkFieldDef "Age" number None None None;
      mkFieldDef " name " number (Some true) None None ]
  ∧ ∃ e, e ∈ dedupeFields [ mkFieldDef "Name" text None None None;
                            mkFieldDef "Age" number None None None;
                            mkFieldDef " name " number (Some true) None None ]
         ∧ trimmedLowercase (name e) = trimmedLowercase " name "
         ∧ ∀ e', e' ∈ dedupeFields [ mkFieldDef "Name" text None None None;
                                     mkFieldDef "Age" number None None None;
                                     mkFieldDef " name " number (Some true) None None ] →
                 trimmedLowercase (name e') = trimmedLowercase " name " → e' = e.
Proof.
  assert (mkFieldDef " name " number (Some true) None None
          ∈ [ mkFieldDef "Name" text None None None;
              mkFieldDef "Age" number None None None;
              mkFieldDef " name " number (Some true) None None ]) as Hin
    by (right; right; left).
  split; [exact Hin|].
  exact (proj1 dedupeFields_first_name_and_kind _ _ Hin).
Defined.

Lemma selectionSignature_order_independent_witness :
  ordersStrictly codeUnitCompare ["b.pdf"; "a.pdf"]
  ∧ ["b.pdf"; "a.pdf"] ≡ₚ ["a.pdf"; "b.pdf"]
  ∧ selectionSignature codeUnitCompare ["b.pdf"; "a.pdf"]
    = selectionSignature codeUnitCompare ["a.pdf"; "b.pdf"].
Proof.
  split_and!; [apply codeUnitCompare_ordersStrictly|apply Permutation_swap|].
  apply (proj1 (selectionSignature_order_independent codeUnitCompare)).
  - apply codeUnitCompare_ordersStrictly.
  - apply Permutation_swap.
Defined.

Lemma empty_selection_served_from_cache_witness :
  mockService 0%nat [EmptyString] = inr (mkResponse fieldsA None)
  ∧ ∃ w', setSelectedPdfs codeUnitCompare mockService []
            (run codeUnitCompare mockService
               [CallSetSelectedPdfs [EmptyString]] initialWorld)
          = (Normal tt, w')
          ∧ selectedPdfs (store w') = []
          ∧ combinedFields (store w') = Fields (dedupeFields fieldsA)
          ∧ calls w'
            = calls (run codeUnitCompare mockService
                       [CallSetSelectedPdfs [EmptyString]] initialWorld)
          ∧ fieldsCache (store w')
            = fieldsCache (store (run codeUnitCompare mockService
                                    [CallSetSelectedPdfs [EmptyString]] initialWorld)).
Proof.
  split; [reflexivity|].
  exact (empty_selection_served_from_cache codeUnitCompare mockService
           (mkResponse fieldsA None) eq_refl).
Defined.

Lemma fetchCombinedFields_rejected_witness :
  readCache (fieldsCache (store selectedWorld))
    (selectionSignature codeUnitCompare (selectedPdfs (store selectedWorld))) = None
  ∧ selectedPdfs (store selectedWorld) ≠ []
  ∧ failingService (length (calls selectedWorld)) (selectedPdfs (store selectedWorld))
    = inl noResponse
  ∧ ∃ w', fetchCombinedFields codeUnitCompare failingService selectedWorld
          = (Throw noResponse, w')
          ∧ isLoadingFields (store w') = false
          ∧ combinedFields (store w') = combinedFields (store selectedWorld)
          ∧ fieldsCache (store w') = fieldsCache (store selectedWorld)
          ∧ calls w'
            = calls selectedWorld ++ [(selectedPdfs (store selectedWorld), inl noResponse)].
Proof.
  split_and!; [vm_compute; reflexivity|discriminate|reflexivity|].
  apply (fetchCombinedFields_rejected codeUnitCompare failingService
           selectedWorld noResponse);
    [vm_compute; reflexivity|discriminate|reflexivity].
Defined.

(** The store test: the second selection is a permutation of the first,
    whose request resolved. *)
Lemma resolved_selections_are_served_from_cache_witness :
  Forall (λ c, isReset c = false) [CallSetSelectedPdfs ["a.pdf"; "b.pdf"]]
  ∧ ordersStrictly codeUnitCompare ["a.pdf"; "b.pdf"]
  ∧ ["a.pdf"; "b.pdf"] ≡ₚ ["b.pdf"; "a.pdf"]
  ∧ ∃ w', setSelectedPdfs codeUnitCompare mockService ["b.pdf"; "a.pdf"]
            (run codeUnitCompare mockService
               [CallSetSelectedPdfs ["a.pdf"; "b.pdf"]] initialWorld)
          = (Normal tt, w')
          ∧ combinedFields (store w') = Fields (dedupeFields fieldsA)
          ∧ calls w' = [(["a.pdf"; "b.pdf"], inr (mkResponse fieldsA None))].
Proof.
  assert (Forall (λ c, isReset c = false) [CallSetSelectedPdfs ["a.pdf"; "b.pdf"]]) as Hcs
    by (repeat constructor).
  split_and!; [exact Hcs|apply codeUnitCompare_ordersStrictly|apply Permutation_swap|].
  destruct (resolved_selections_are_served_from_cache codeUnitCompare mockService
              [CallSetSelectedPdfs ["a.pdf"; "b.pdf"]] initialWorld Hcs)
    as (log & Hcalls & _ & Hhit).
  change (calls initialWorld ++ log) with log in Hcalls.
  destruct (Hhit ["a.pdf"; "b.pdf"] (mkResponse fieldsA None) ["b.pdf"; "a.pdf"])
    as (w' & Hrun & Hfields & Hsame).
  - rewrite <- Hcalls. left.
  - right. split; [apply codeUnitCompare_ordersStrictly|apply Permutation_swap].
  - exists w'. split_and!; [exact Hrun|exact Hfields|].
    rewrite Hsame. reflexivity.
Defined.

(** ** Where the specification and the code part *)

(** C2 as stated fails: a rejected request caches nothing, so the same
    selection is requested again. *)
Lemma rejected_selection_is_requested_again :
  (calls (run codeUnitCompare failingService
            [CallSetSelectedPdfs ["a.pdf"]; CallSetSelectedPdfs ["a.pdf"]]
            initialWorld)).*1
  = [["a.pdf"]; ["a.pdf"]].
Proof. vm_compute. reflexivity. Qed.

(** C3 as stated fails: the counts are doubles, and the sum of 2^53, 1
    and 1, taken in this order, is 2^53. *)
Lemma occurrences_sum_is_rounded :
  dedupeFields
    [ mkFieldDef "Name" text None None (occ [("a.pdf", 9007199254740992)]);
      mkFieldDef "name" text None None (occ [("a.pdf", 1)]);
      mkFieldDef "NAME" text None None (occ [("a.pdf", 1)]) ]
  = [ mkFieldDef "Name" text None None (occ [("a.pdf", 9007199254740992)]) ]
  ∧ sumZ [9007199254740992; 1; 1] ≠ 9007199254740992.
Proof. split; [vm_compute; reflexivity|vm_compute; discriminate]. Qed.

(** C6 as stated fails: a repeated id changes the signature. *)
Lemma selectionSignature_counts_repeated_ids :
  (∀ x : string, x ∈ ["a"; "a"] ↔ x ∈ ["a"])
  ∧ selectionSignature codeUnitCompare ["a"; "a"]
    ≠ selectionSignature codeUnitCompare ["a"].
Proof.
  split; [|vm_compute; discriminate].
  intros x. rewrite !elem_of_cons. tauto.
Qed.

(** ** Where the code parts from its own comments and tests *)

(** Under a document id that is a name of [Object.prototype] the merged
    occurrences are no sum: under [constructor] they are the text of the
    inherited function followed by the counts, and an entry under
    [__proto__] is lost. *)
Lemma occurrences_under_inherited_names :
  dedupeFields
    [ mkFieldDef "Name" text None None (occ [("constructor", 1); ("__proto__", 1)]);
      mkFieldDef "name" text None None (occ [("constructor", 2); ("__proto__", 2)]) ]
  = [ mkFieldDef "Name" text None None
        (Some {[ "constructor" :=
                   JsValue.Str [ JsValue.MemberText "constructor";
                                 JsValue.NumberText (JsNumber.Fin 1);
                                 JsValue.NumberText (JsNumber.Fin 2) ] ]}) ].
Proof. vm_compute. reflexivity. Qed.

(** With a comparison that compares two distinct ids as equal, the stable
    sort keeps them in the order of the selection: the signature is not
    independent of the order, against the comment on
    [selectionSignature], and a permutation of a selection that resolved
    is requested again. *)
Lemma tied_ids_keep_their_order :
  ignoringControls "a" (String "a" (String "001" EmptyString)) = Eq
  ∧ selectionSignature ignoringControls ["a"; String "a" (String "001" EmptyString)]
    ≠ selectionSignature ignoringControls [String "a" (String "001" EmptyString); "a"]
  ∧ (calls (run ignoringControls mockService
              [ CallSetSelectedPdfs ["a"; String "a" (String "001" EmptyString)];
                CallSetSelectedPdfs [String "a" (String "001" EmptyString); "a"] ]
              initialWorld)).*1
    = [ ["a"; String "a" (String "001" EmptyString)];
        [String "a" (String "001" EmptyString); "a"] ].
Proof. split_and!; [reflexivity|vm_compute; discriminate|vm_compute; reflexivity]. Qed.

(** * Further properties *)

(** ** The deduplicator: the [required] flag *)

Lemma mergeField_required e f :
  required (mergeField e f)
  = match required f with
    | Some true => Some true
    | _ => required e
    end.
Proof.
  unfold mergeField.
  destruct (required f) as [[]|], (bool_decide _ || bool_decide _); reflexivity.
Qed.

Lemma mergeGroup_required g e :
  mergeGroup g = Some e →
  ∃ first later,
    g = first :: later
    ∧ required e
      = if bool_decide (Exists (λ f, required f = Some true) later)
        then Some true else required first.
Proof.
  revert g e. apply mergeGroup_ind.
  - intros f. exists f, []. split; [done|].
    rewrite bool_decide_eq_false_2; [done|]. by intros ?%Exists_nil.
  - intros g e f _ (first & later & -> & Hreq). exists first, (later ++ [f]).
    split; [done|]. rewrite mergeField_required, Hreq.
    destruct (required f) as [[]|] eqn:Hf.
    + rewrite bool_decide_eq_true_2; [done|].
      apply Exists_app. right. by constructor.
    + case_bool_decide as Hl.
      * rewrite bool_decide_eq_true_2; [done|]. apply Exists_app. by left.
      * rewrite bool_decide_eq_false_2; [done|].
        intros [?|Hx]%Exists_app; [done|].
        apply Exists_cons in Hx as [?|?%Exists_nil]; [congruence|done].
    + case_bool_decide as Hl.
      * rewrite bool_decide_eq_true_2; [done|]. apply Exists_app. by left.
      * rewrite bool_decide_eq_false_2; [done|].
        intros [?|Hx]%Exists_app; [done|].
        apply Exists_cons in Hx as [?|?%Exists_nil]; [congruence|done].
Qed.

(** X1. The [required] flag of an output entry is [true] as soon as a
    later descriptor of its name has it [true]; otherwise it is what the
    first descriptor of the name has, a later [false] changing nothing.
    So whenever any contributing descriptor is required, the entry is. *)
Theorem dedupeFields_required :
  ∀ (fs : list FieldDef) (e : FieldDef),
    e ∈ dedupeFields fs →
    (∃ first later,
       group (normalizeName (name e)) fs = first :: later
       ∧ required e
         = if bool_decide (Exists (λ f, required f = Some true) later)
           then Some true else required first)
    ∧ (Exists (λ f, required f = Some true) (group (normalizeName (name e)) fs) →
       required e = Some true).
Proof.
  intros fs e He. apply dedupeFields_elem in He. fold (keyOf e).
  destruct (mergeGroup_required _ _ He) as (first & later & Hg & Hreq).
  split; [by exists first, later|].
  rewrite Hg, Exists_cons, Hreq. intros [Hfirst|Hlater].
  - by case_bool_decide.
  - by rewrite bool_decide_eq_true_2.
Qed.

(** ** The deduplicator: size, fixed points, increments *)

Lemma firstSeen_submseteq (l : list string) : firstSeen l ⊆+ l.
Proof.
  apply NoDup_submseteq; [apply JsSetFacts.NoDup_firstSeen|].
  intros x. by rewrite JsSetFacts.elem_of_firstSeen.
Qed.

Lemma firstSeen_length (l : list string) :
  (length (firstSeen l) ≤ length l)%nat
  ∧ (length (firstSeen l) = length l ↔ NoDup l).
Proof.
  pose proof (firstSeen_submseteq l) as Hsub. split; [by apply submseteq_length|].
  split.
  - intros Hlen. rewrite <- (submseteq_length_Permutation _ _ Hsub).
    + apply JsSetFacts.NoDup_firstSeen.
    + by rewrite Hlen.
  - intros Hnd. by rewrite JsSetFacts.firstSeen_NoDup.
Qed.

(** X2. [dedupeFields] never returns more entries than it is given, and
    returns as many exactly when no two inputs share a normalized
    name. *)
Theorem dedupeFields_length (fs : list FieldDef) :
  (length (dedupeFields fs) ≤ length fs)%nat
  ∧ (length (dedupeFields fs) = length fs
     ↔ NoDup ((λ f, normalizeName (name f)) <$> fs)).
Proof.
  pose proof (f_equal length (dedupeFields_keys fs)) as Hlen.
  rewrite length_fmap in Hlen. rewrite Hlen.
  pose proof (firstSeen_length (keyOf <$> fs)) as [Hle Heq].
  rewrite length_fmap in Hle, Heq. done.
Qed.

Lemma cloneField_fixed f :
  cloneField f = f ↔ ∀ o, options f = Some o → NoDup o.
Proof.
  destruct f as [n k r o oc]. unfold cloneField. simpl. split.
  - intros Heq o' ->. injection Heq as Ho _.
    rewrite <- Ho, JsSetFacts.of_list_firstSeen. apply JsSetFacts.NoDup_firstSeen.
  - intros Hnd. f_equal; [|by destruct oc]. destruct o as [o|]; [|done].
    by rewrite JsSetFacts.of_list_firstSeen, JsSetFacts.firstSeen_NoDup by by apply Hnd.
Qed.

(** X3. The lists [dedupeFields] returns unchanged are those with
    distinct normalized names and duplicate-free options. *)
Theorem dedupeFields_fixed_points (fs : list FieldDef) :
  dedupeFields fs = fs
  ↔ NoDup ((λ f, normalizeName (name f)) <$> fs)
    ∧ Forall (λ f, ∀ o, options f = Some o → NoDup o) fs.
Proof.
  split.
  - intros Hfix. split.
    + rewrite <- Hfix. apply dedupeFields_NoDup_keys.
    + apply Forall_forall. intros f Hf. apply cloneField_fixed.
      apply (cloneField_output fs). by rewrite Hfix.
  - intros [Hnd Hopts]. rewrite dedupeFields_distinct by done.
    apply fmap_fixed. intros f Hf. apply cloneField_fixed.
    by apply (proj1 (Forall_forall _ _) Hopts).
Qed.

Lemma dedupe_loop_of_output (a : list FieldDef) :
  foldl dedupeStep JsMap.empty (dedupeFields a) = foldl dedupeStep JsMap.empty a.
Proof.
  rewrite dedupe_loop_distinct;
    [|apply dedupeFields_NoDup_keys|intros; apply not_elem_of_nil].
  simpl. unfold dedupeFields, JsMap.values.
  pose proof (dedupe_loop_elem a) as Hel.
  pose proof (cloneField_output a) as Hclone.
  unfold dedupeFields, JsMap.values in Hclone.
  induction (foldl dedupeStep JsMap.empty a) as [|[k e] m IH]; csimpl; [done|].
  f_equal.
  - f_equal.
    + apply (Hel k e). left.
    + apply Hclone. csimpl. left.
  - apply IH.
    + intros k' e' Hin. apply Hel. by right.
    + intros e' Hin. apply Hclone. csimpl. by right.
Qed.

(** X4. Deduplicating in two steps gives what one step gives: the fields
    of [a] may be deduplicated before the fields of [b] arrive. *)
Theorem dedupeFields_incremental (a b : list FieldDef) :
  dedupeFields (dedupeFields a ++ b) = dedupeFields (a ++ b).
Proof.
  unfold dedupeFields at 1 3. rewrite !foldl_app. by rewrite dedupe_loop_of_output.
Qed.

(** ** The deduplicator: occurrences and options once more *)

Lemma occurrences_eq (o o' : option (gmap string JsValue.t)) :
  (o = None ↔ o' = None) → (∀ pdf, lookupIn o pdf = lookupIn o' pdf) → o = o'.
Proof.
  intros Hnone Hpt. destruct o as [m|], o' as [m'|];
    [|by destruct (proj2 Hnone)|by destruct (proj1 Hnone)|done].
  f_equal. apply map_eq. exact Hpt.
Qed.






Lemma sumZ_Permutation l1 l2 : l1 ≡ₚ l2 → sumZ l1 = sumZ l2.
Proof.
  unfold sumZ. induction 1; simpl; lia.
Qed.

Lemma sumZ_abs_nonneg (l : list Z) : 0 ≤ sumZ (Z.abs <$> l).
Proof. unfold sumZ. induction l as [|z l IH]; csimpl; lia. Qed.

Lemma sumZ_take_abs (l : list Z) (k : nat) :
  Z.abs (sumZ (take k l)) ≤ sumZ (Z.abs <$> l).
Proof.
  revert k. induction l as [|z l IH]; intros k.
  - by rewrite take_nil.
  - destruct k as [|k]; csimpl.
    + pose proof (sumZ_abs_nonneg l). unfold sumZ in *. simpl. lia.
    + specialize (IH k). unfold sumZ in *. simpl. lia.
Qed.

Lemma exactTotals_abs (l : list Z) : sumZ (Z.abs <$> l) ≤ 2 ^ 53 → exactTotals l.
Proof.
  intros Hl k. pose proof (sumZ_take_abs l k). lia.
Qed.

Lemma safeCounts_Permutation g g' : g ≡ₚ g' → safeCounts g → safeCounts g'.
Proof.
  intros Hperm Hg pdf Hex. rewrite <- Hperm in Hex.
  destruct (Hg pdf Hex) as (Hpdf & Hfin & Hsum). split_and!; [done|by rewrite <- Hperm|].
  by rewrite <- (sumZ_Permutation _ _ (fmap_Permutation _ _ _ Hperm)).
Qed.

(** What a group with safe counts merges to under a document id. *)
Lemma mergeGroup_safe g e pdf :
  mergeGroup g = Some e → safeCounts g →
  (Exists (mentions pdf) g →
   valueIn pdf e = Some (JsValue.Num (JsNumber.Fin (sumZ (countIn pdf <$> g)))))
  ∧ (¬ Exists (mentions pdf) g → valueIn pdf e = None).
Proof.
  intros He Hsafe. apply mergeGroup_occurrences in He as [_ Hpt].
  destruct (Hpt pdf) as [Hinv Hplain]. split.
  - intros Hex. destruct (Hsafe pdf Hex) as (Hpdf & Hfin & Hsum).
    destruct (Hplain Hpdf) as [Hmen Hcnt].
    destruct Hcnt as [Hfe Hce]; [done| |].
    { apply exactTotals_abs. by rewrite <- list_fmap_compose. }
    apply Hmen, mentions_valueIn in Hex as [v Hv].
    unfold countIn in Hce. rewrite Hv in Hce |- *.
    destruct (Hfe v Hv) as [z ->]. by rewrite Hce.
  - intros Hex. apply not_mentions_valueIn. intros Hm. by apply Hex, Hinv.
Qed.

(** X6. The occurrences of an entry do not depend on the order of the
    input when the counts of its contributing descriptors can be added
    without rounding, under ids that are no names of [Object.prototype]:
    two orderings of the same descriptors then give, name by name, the
    same occurrences. *)
Theorem dedupeFields_occurrences_order_independent :
  ∀ (fs fs' : list FieldDef) (e e' : FieldDef),
    fs ≡ₚ fs' →
    e ∈ dedupeFields fs → e' ∈ dedupeFields fs' →
    trimmedLowercase (name e) = trimmedLowercase (name e') →
    safeCounts (contributors e fs) →
    occurrences e = occurrences e'.
Proof.
  intros fs fs' e e' Hperm He He' Hkey Hsafe.
  rewrite contributors_group in Hsafe. rewrite <- !keyOf_spec in Hkey.
  apply dedupeFields_elem in He, He'. rewrite <- Hkey in He'.
  assert (group (keyOf e) fs ≡ₚ group (keyOf e) fs') as Hg
    by (unfold group; by rewrite Hperm).
  pose proof (safeCounts_Permutation _ _ Hg Hsafe) as Hsafe'.
  apply occurrences_eq.
  - rewrite (proj1 (mergeGroup_occurrences _ _ He)),
      (proj1 (mergeGroup_occurrences _ _ He')). by rewrite Hg.
  - intros pdf. change (valueIn pdf e = valueIn pdf e').
    destruct (mergeGroup_safe _ _ pdf He Hsafe) as [Hsome Hnone].
    destruct (mergeGroup_safe _ _ pdf He' Hsafe') as [Hsome' Hnone'].
    destruct (valueIn pdf e) as [v|] eqn:Hv.
    + assert (Exists (mentions pdf) (group (keyOf e) fs)) as Hex.
      { apply (mergeGroup_occurrences _ _ He), mentions_valueIn. by eexists. }
      rewrite (Hsome Hex), Hsome' by by rewrite <- Hg.
      by rewrite (sumZ_Permutation _ _ (fmap_Permutation (countIn pdf) _ _ Hg)).
    + symmetry. apply Hnone'. rewrite <- Hg. intros Hex.
      by specialize (Hsome Hex).
Qed.

(** X7. The options of an output entry hold no value twice, and hold
    exactly the values found in the options of the descriptors of its
    name. *)
Theorem dedupeFields_options_distinct :
  ∀ (fs : list FieldDef) (e : FieldDef) (o : list string),
    e ∈ dedupeFields fs → options e = Some o →
    NoDup o
    ∧ ∀ x, x ∈ o
           ↔ ∃ f o', f ∈ group (normalizeName (name e)) fs
                     ∧ options f = Some o' ∧ x ∈ o'.
Proof.
  intros fs e o He Ho. apply dedupeFields_elem, mergeGroup_options in He.
  fold (keyOf e). rewrite Ho in He. unfold unionOptions in He.
  case_bool_decide; [done|]. injection He as ->.
  split; [apply JsSetFacts.NoDup_firstSeen|].
  intros x. rewrite JsSetFacts.elem_of_firstSeen.
  generalize (group (keyOf e) fs). intros g.
  induction g as [|f g IH]; csimpl.
  - split; [by intros ?%elem_of_nil|]. by intros (f & o' & ?%elem_of_nil & _).
  - rewrite elem_of_app, IH. unfold optionsOf at 1. split.
    + intros [Hx|(f' & o' & Hf' & Ho' & Hx)].
      * destruct (options f) as [o'|] eqn:Hf; [|by apply elem_of_nil in Hx].
        exists f, o'. split_and!; [left|done|done].
      * exists f', o'. split_and!; [by right|done|done].
    + intros (f' & o' & [->|Hf']%elem_of_cons & Ho' & Hx).
      * left. by rewrite Ho'.
      * right. by exists f', o'.
Qed.

(** ** The store: every way through a call *)

Section StoreMore.

Variable localeCompare : string → string → comparison.
Variable service : nat → list string → ServiceResult.

(** The four ways through [fetchCombinedFields], with what decides
    between them. *)
Lemma fetchCombinedFields_cases (w : World) :
  let s := store w in
  let pdfs := selectedPdfs s in
  let sig := selectionSignature localeCompare pdfs in
  (∃ found,
     readCache (fieldsCache s) sig = Some found
     ∧ fetchCombinedFields localeCompare service w
       = (Normal tt, mkWorld (with_combinedFields found s) (calls w)))
  ∨ (readCache (fieldsCache s) sig = None ∧ pdfs = []
     ∧ fetchCombinedFields localeCompare service w
       = (Normal tt, mkWorld (with_combinedFields (Fields []) s) (calls w)))
  ∨ (∃ e,
       readCache (fieldsCache s) sig = None ∧ pdfs ≠ []
       ∧ service (length (calls w)) pdfs = inl e
       ∧ fetchCombinedFields localeCompare service w
         = (Throw e, mkWorld (with_isLoadingFields false s)
                             (calls w ++ [(pdfs, inl e)])))
  ∨ (∃ res,
       readCache (fieldsCache s) sig = None ∧ pdfs ≠ []
       ∧ service (length (calls w)) pdfs = inr res
       ∧ fetchCombinedFields localeCompare service w
         = (Normal tt,
            mkWorld (with_isLoadingFields false
                       (with_fieldsCache
                          (<[sig := dedupeFields (fields res)]> (fieldsCache s))
                          (with_combinedFields (Fields (dedupeFields (fields res))) s)))
                    (calls w ++ [(pdfs, inr res)]))).
Proof.
  intros s pdfs sig. rewrite fetchCombinedFields_unfold. cbv zeta.
  fold s. fold pdfs. fold sig.
  destruct (readCache (fieldsCache s) sig) as [found|] eqn:Hsig.
  { left. by exists found. }
  destruct pdfs as [|pdf rest] eqn:Hpdfs.
  { right. left. done. }
  simpl. destruct (service (length (calls w)) (pdf :: rest)) as [e|res] eqn:Hsvc.
  - right. right. left. by exists e.
  - right. right. right. by exists res.
Qed.

Lemma loadPdfs_unfold settled (w : World) :
  loadPdfs settled w
  = match settled with
    | inl e => (Throw e, mkWorld (with_isLoadingPdfs false (store w)) (calls w))
    | inr pdfs =>
        (Normal tt,
         mkWorld (with_isLoadingPdfs false (with_allPdfs pdfs (store w))) (calls w))
    end.
Proof. destruct w as [s log], s, settled; reflexivity. Qed.

Lemma updateFieldValue_unfold name value (w : World) :
  updateFieldValue name value w
  = (Normal tt,
     mkWorld (with_fieldValues (<[name := value]> (fieldValues (store w))) (store w))
             (calls w)).
Proof. reflexivity. Qed.

Lemma runOps_snoc ops op w :
  runOps localeCompare service (ops ++ [op]) w
  = (runOp localeCompare service op (runOps localeCompare service ops w)).2.
Proof. unfold runOps. by rewrite foldl_snoc. Qed.

Lemma runOps_calls cs w :
  runOps localeCompare service (OpCall <$> cs) w = run localeCompare service cs w.
Proof.
  induction cs as [|c cs IH] using rev_ind; [done|].
  rewrite fmap_app. change (OpCall <$> [c]) with [OpCall c].
  by rewrite runOps_snoc, run_snoc, IH.
Qed.

(** An invariant kept by every operation holds after every sequence. *)
Lemma runOps_invariant (P : World → Prop) ops w :
  P w →
  (∀ op w, op ∈ ops → P w → P (runOp localeCompare service op w).2) →
  P (runOps localeCompare service ops w).
Proof.
  intros Hw. induction ops as [|op ops IH] using rev_ind; intros Hstep; [done|].
  rewrite runOps_snoc. apply Hstep.
  - apply elem_of_app. right. by left.
  - apply IH. intros op' w' Hin. apply Hstep. apply elem_of_app. by left.
Qed.

(** From here on the two parameters are left out. *)
Local Abbreviation selectionSignature := (selectionSignature localeCompare).
Local Abbreviation fetchCombinedFields := (fetchCombinedFields localeCompare service).
Local Abbreviation setSelectedPdfs := (setSelectedPdfs localeCompare service).
Local Abbreviation runCall := (runCall localeCompare service).
Local Abbreviation runOp := (runOp localeCompare service).
Local Abbreviation runOps := (runOps localeCompare service).

(** ** The store: how a selection ends *)

(** X8. When [setSelectedPdfs(pdfs)] completes normally, the selection
    is [pdfs] and the fields shown are what a read of the cache under its
    signature finds: the cache entry, or, where there is none and the
    signature is a name of [Object.prototype], the inherited member.
    Only for the empty selection can the read find nothing, and then the
    empty list is shown. *)
Theorem setSelectedPdfs_completed (pdfs : list string) (w w' : World) :
  setSelectedPdfs pdfs w = (Normal tt, w') →
  selectedPdfs (store w') = pdfs
  ∧ (readCache (fieldsCache (store w')) (selectionSignature pdfs)
     = Some (combinedFields (store w'))
     ∨ (pdfs = [] ∧ combinedFields (store w') = Fields []
        ∧ readCache (fieldsCache (store w')) (selectionSignature pdfs) = None)).
Proof.
  rewrite setSelectedPdfs_unfold.
  destruct (fetchCombinedFields_cases
              (mkWorld (with_selectedPdfs pdfs (store w)) (calls w)))
    as [(found & Hc & ->)|[(Hc & Hnil & ->)|[(e & _ & _ & _ & ->)|(res & Hc & _ & _ & ->)]]];
    simpl in *; intros [= <-]; simpl.
  - split; [done|]. by left.
  - split; [done|]. by right.
  - split; [done|]. left. apply readCache_own. by rewrite lookup_insert_eq.
Qed.

(** X9. [setSelectedPdfs(pdfs)] throws only when it sent a request for
    the new, non-empty selection and the request was rejected; the store
    then has the new selection, the fields and the cache it had before,
    and [isLoadingFields] false. *)
Theorem setSelectedPdfs_thrown (pdfs : list string) (w w' : World) (e : ApiError) :
  setSelectedPdfs pdfs w = (Throw e, w') →
  pdfs ≠ []
  ∧ fieldsCache (store w) !! selectionSignature pdfs = None
  ∧ service (length (calls w)) pdfs = inl e
  ∧ calls w' = calls w ++ [(pdfs, inl e)]
  ∧ selectedPdfs (store w') = pdfs
  ∧ combinedFields (store w') = combinedFields (store w)
  ∧ fieldsCache (store w') = fieldsCache (store w)
  ∧ isLoadingFields (store w') = false.
Proof.
  rewrite setSelectedPdfs_unfold.
  destruct (fetchCombinedFields_cases
              (mkWorld (with_selectedPdfs pdfs (store w)) (calls w)))
    as [(cached & Hc & ->)|[(Hc & Hnil & ->)|[(e' & Hc & Hne & Hsvc & ->)|(res & _ & _ & _ & ->)]]];
    simpl in *; intros [= <- <-]; simpl.
  apply readCache_None in Hc as [Hc _]. by split_and!.
Qed.

(** X10. Fetching again after a fetch that completed normally changes
    nothing and sends nothing. *)
Theorem fetchCombinedFields_again (w w' : World) :
  fetchCombinedFields w = (Normal tt, w') →
  fetchCombinedFields w' = (Normal tt, w').
Proof.
  destruct (fetchCombinedFields_cases w)
    as [(cached & Hc & ->)|[(Hc & Hnil & ->)|[(e' & _ & _ & _ & ->)|(res & Hc & Hne & _ & ->)]]];
    intros [= <-]; rewrite fetchCombinedFields_unfold; cbv zeta; simpl.
  - rewrite Hc. by destruct w as [[] ?].
  - rewrite Hc, Hnil. by destruct w as [[] ?].
  - rewrite (readCache_own _ _ (dedupeFields (fields res)))
      by by rewrite lookup_insert_eq.
    by destruct w as [[] ?].
Qed.

(** ** The store: what sequences of operations keep *)

Lemma runOp_fieldsCache op w k v :
  opResets op = false →
  fieldsCache (store w) !! k = Some v →
  fieldsCache (store (runOp op w).2) !! k = Some v.
Proof.
  intros Hop Hk. destruct op as [[pdfs| |]|settled|name value]; simpl in *.
  - rewrite setSelectedPdfs_unfold.
    destruct (fetchCombinedFields_cases
                (mkWorld (with_selectedPdfs pdfs (store w)) (calls w)))
      as [(cached & Hc & ->)|[(Hc & Hnil & ->)|[(e & _ & _ & _ & ->)|(res & Hc & _ & _ & ->)]]];
      simpl in *; try done.
    apply readCache_None in Hc as [Hc _].
    rewrite lookup_insert_ne; [done|]. congruence.
  - destruct (fetchCombinedFields_cases w)
      as [(cached & Hc & ->)|[(Hc & Hnil & ->)|[(e & _ & _ & _ & ->)|(res & Hc & _ & _ & ->)]]];
      simpl in *; try done.
    apply readCache_None in Hc as [Hc _].
    rewrite lookup_insert_ne; [done|]. congruence.
  - done.
  - rewrite loadPdfs_unfold. by destruct settled.
  - done.
Qed.

(** X11. Without [reset], the cache only grows: an entry, once there, is
    never removed and never replaced, whatever operations follow. *)
Theorem cache_entries_stay (ops : list StoreOp) (w : World) (k : string) (v : list FieldDef) :
  Forall (λ op, opResets op = false) ops →
  fieldsCache (store w) !! k = Some v →
  fieldsCache (store (runOps ops w)) !! k = Some v.
Proof.
  intros Hops Hk.
  apply (runOps_invariant (λ w, fieldsCache (store w) !! k = Some v)); [done|].
  intros op w' Hin. apply runOp_fieldsCache.
  by apply (proj1 (Forall_forall _ _) Hops).
Qed.

Lemma fetchCombinedFields_cacheFromLog w :
  cacheFromLog localeCompare w → cacheFromLog localeCompare (fetchCombinedFields w).2.
Proof.
  intros Hw.
  destruct (fetchCombinedFields_cases w)
    as [(cached & Hc & ->)|[(Hc & Hnil & ->)|[(e & _ & _ & _ & ->)|(res & Hc & Hne & _ & ->)]]];
    simpl; try done.
  - intros k v Hk. destruct (Hw k v Hk) as (pdfs & res & Hin & ?).
    exists pdfs, res. split; [|done]. apply elem_of_app. by left.
  - intros k v Hk. simpl in Hk.
    destruct (decide (selectionSignature (selectedPdfs (store w)) = k)) as [<-|Hne'].
    + rewrite lookup_insert_eq in Hk. injection Hk as <-.
      exists (selectedPdfs (store w)), res. split_and!; try done.
      apply elem_of_app. right. by left.
    + rewrite lookup_insert_ne in Hk by done.
      destruct (Hw k v Hk) as (pdfs & res' & Hin & ?).
      exists pdfs, res'. split; [|done]. apply elem_of_app. by left.
Qed.

(** X12. Whatever the operations since the page was loaded, [reset]
    included, every cache entry is the deduplicated response of a request
    that was sent for a non-empty selection and resolved, stored under
    the signature of that selection. *)
Theorem cache_entries_are_responses (ops : list StoreOp) (k : string) (v : list FieldDef) :
  fieldsCache (store (runOps ops initialWorld)) !! k = Some v →
  ∃ pdfs res,
    (pdfs, inr res) ∈ calls (runOps ops initialWorld) ∧ pdfs ≠ []
    ∧ k = selectionSignature pdfs ∧ v = dedupeFields (fields res).
Proof.
  revert k v. change (cacheFromLog localeCompare (runOps ops initialWorld)).
  apply runOps_invariant.
  - intros k v Hk. simpl in Hk. by rewrite lookup_empty in Hk.
  - intros op w _ Hw. destruct op as [[pdfs| |]|settled|name value]; simpl.
    + rewrite setSelectedPdfs_unfold. by apply fetchCombinedFields_cacheFromLog.
    + by apply fetchCombinedFields_cacheFromLog.
    + intros k v Hk. simpl in Hk. by rewrite lookup_empty in Hk.
    + rewrite loadPdfs_unfold. by destruct settled.
    + done.
Qed.

Lemma runOp_calls op w :
  ∃ new,
    calls (runOp op w).2 = calls w ++ new
    ∧ (length new ≤ 1)%nat
    ∧ Forall (λ c, c.1 ≠ []) new.
Proof.
  assert (∀ new : list (list string * ServiceResult),
            new = [] → (length new ≤ 1)%nat ∧ Forall (λ c, c.1 ≠ []) new) as Hnone.
  { intros new ->. split; [simpl; lia|constructor]. }
  assert (∀ w, ∃ new,
            calls (fetchCombinedFields w).2 = calls w ++ new
            ∧ (length new ≤ 1)%nat
            ∧ Forall (λ c, c.1 ≠ []) new)
    as Hfetch.
  { intros w0. destruct (fetchCombinedFields_cases w0)
      as [(cached & Hc & ->)|[(Hc & Hnil & ->)|[(e & _ & Hne & _ & ->)|(res & Hc & Hne & _ & ->)]]];
      simpl.
    - exists []. rewrite app_nil_r. split; [done|by apply Hnone].
    - exists []. rewrite app_nil_r. split; [done|by apply Hnone].
    - eexists. split_and!; [done|simpl; lia|]. by repeat constructor.
    - eexists. split_and!; [done|simpl; lia|]. by repeat constructor. }
  destruct op as [[pdfs| |]|settled|name value]; simpl.
  - rewrite setSelectedPdfs_unfold.
    exact (Hfetch (mkWorld (with_selectedPdfs pdfs (store w)) (calls w))).
  - apply Hfetch.
  - exists []. rewrite app_nil_r. split; [done|by apply Hnone].
  - rewrite loadPdfs_unfold. exists []. rewrite app_nil_r.
    split; [by destruct settled|by apply Hnone].
  - exists []. rewrite app_nil_r. split; [done|by apply Hnone].
Qed.

(** X13. The store sends at most one request per operation, never
    retries, and never asks the service for the fields of an empty
    selection. *)
Theorem requests_sent (ops : list StoreOp) (w : World) :
  ∃ new,
    calls (runOps ops w) = calls w ++ new
    ∧ (length new ≤ length ops)%nat
    ∧ Forall (λ c, c.1 ≠ []) new.
Proof.
  induction ops as [|op ops (new & Hcalls & Hlen & Hne)] using rev_ind.
  - exists []. by rewrite app_nil_r.
  - rewrite runOps_snoc.
    destruct (runOp_calls op (runOps ops w)) as (new' & Hcalls' & Hlen' & Hne').
    exists (new ++ new'). split_and!.
    + by rewrite Hcalls', Hcalls, app_assoc.
    + rewrite !length_app. simpl. clear -Hlen Hlen'. lia.
    + by apply Forall_app.
Qed.

(** X14. After every sequence of operations run one after the other
    from the initial store, no loading flag is left set. *)
Theorem loading_flags_cleared (ops : list StoreOp) :
  isLoadingFields (store (runOps ops initialWorld)) = false
  ∧ isLoadingPdfs (store (runOps ops initialWorld)) = false.
Proof.
  apply (runOps_invariant
           (λ w, isLoadingFields (store w) = false ∧ isLoadingPdfs (store w) = false));
    [done|].
  intros op w _ [Hf Hp]. destruct op as [[pdfs| |]|settled|name value]; simpl.
  - rewrite setSelectedPdfs_unfold.
    destruct (fetchCombinedFields_cases
                (mkWorld (with_selectedPdfs pdfs (store w)) (calls w)))
      as [(cached & Hc & ->)|[(Hc & Hnil & ->)|[(e & _ & _ & _ & ->)|(res & Hc & _ & _ & ->)]]];
      done.
  - destruct (fetchCombinedFields_cases w)
      as [(cached & Hc & ->)|[(Hc & Hnil & ->)|[(e & _ & _ & _ & ->)|(res & Hc & _ & _ & ->)]]];
      done.
  - done.
  - rewrite loadPdfs_unfold. by destruct settled.
  - done.
Qed.

Lemma runOp_fieldValues op w name :
  opResets op = false → opWrites name op = false →
  fieldValues (store (runOp op w).2) !! name = fieldValues (store w) !! name.
Proof.
  intros Hr Hw. destruct op as [[pdfs| |]|settled|n value]; simpl in *.
  - rewrite setSelectedPdfs_unfold.
    by destruct (fetchCombinedFields_cases
                   (mkWorld (with_selectedPdfs pdfs (store w)) (calls w)))
      as [(cached & Hc & ->)|[(Hc & Hnil & ->)|[(e & _ & _ & _ & ->)|(res & Hc & _ & _ & ->)]]].
  - by destruct (fetchCombinedFields_cases w)
      as [(cached & Hc & ->)|[(Hc & Hnil & ->)|[(e & _ & _ & _ & ->)|(res & Hc & _ & _ & ->)]]].
  - done.
  - rewrite loadPdfs_unfold. by destruct settled.
  - apply bool_decide_eq_false in Hw. by rewrite lookup_insert_ne.
Qed.

(** X15. A field value written with [updateFieldValue] is read back
    after any later operations that neither write that field again nor
    reset the store: changes of selection, fetches that resolve or are
    rejected, and writes to other fields leave it in place. *)
Theorem updateFieldValue_persists
    (name value : string) (ops : list StoreOp) (w : World) :
  Forall (λ op, opResets op = false ∧ opWrites name op = false) ops →
  fieldValues (store (runOps ops (updateFieldValue name value w).2)) !! name
  = Some value.
Proof.
  intros Hops.
  apply (runOps_invariant (λ w, fieldValues (store w) !! name = Some value)).
  - simpl. by rewrite lookup_insert_eq.
  - intros op w' Hin Hw.
    destruct (proj1 (Forall_forall _ _) Hops op Hin) as [Hr Hwr].
    by rewrite runOp_fieldValues.
Qed.

(** X16. [loadPdfs] clears [isLoadingPdfs] whether the request resolves
    or is rejected; resolved, the list of documents is the response;
    rejected, the error reaches the caller and the list is the one from
    before.  Selection, fields, cache, field values and the request log
    stay as they were. *)
Theorem loadPdfs_settled (settled : ApiError + list string) (w : World) :
  ∃ c w',
    loadPdfs settled w = (c, w')
    ∧ isLoadingPdfs (store w') = false
    ∧ match settled with
      | inl e => c = Throw e ∧ allPdfs (store w') = allPdfs (store w)
      | inr pdfs => c = Normal tt ∧ allPdfs (store w') = pdfs
      end
    ∧ selectedPdfs (store w') = selectedPdfs (store w)
    ∧ combinedFields (store w') = combinedFields (store w)
    ∧ fieldsCache (store w') = fieldsCache (store w)
    ∧ fieldValues (store w') = fieldValues (store w)
    ∧ calls w' = calls w.
Proof.
  rewrite loadPdfs_unfold. destruct settled; eexists _, _; by split_and!.
Qed.

(** X17. [reset] empties the cache: after it, selecting any non-empty
    list whose signature is no name of [Object.prototype] sends a
    request, also for a selection that was cached before. *)
Theorem reset_invalidates_cache (pdfs : list string) (w : World) :
  pdfs ≠ [] →
  selectionSignature pdfs ∉ objectPrototypeKeys →
  calls (setSelectedPdfs pdfs (reset w).2).2
  = calls w ++ [(pdfs, service (length (calls w)) pdfs)].
Proof.
  intros Hne Hsig. rewrite reset_unfold, setSelectedPdfs_unfold. simpl.
  destruct (fetchCombinedFields_cases
              (mkWorld (with_selectedPdfs pdfs initialState) (calls w)))
    as [(found & Hc & ->)|[(Hc & Hnil & ->)|[(e & _ & _ & Hs & ->)|(res & Hc & _ & Hs & ->)]]];
    simpl in *.
  - by rewrite (readCache_plain _ _ Hsig), lookup_empty in Hc.
  - done.
  - by rewrite Hs.
  - by rewrite Hs.
Qed.

End StoreMore.

(** ** The library list: the filter *)

Lemma prefix_spec q s : String.prefix q s = true ↔ ∃ r, s = q +:+ r.
Proof.
  revert s. induction q as [|a q IH]; intros s; simpl.
  - destruct s; (split; [intros _; by eexists|done]).
  - destruct s as [|b s]; simpl.
    + split; [done|]. by intros [r ?].
    + destruct (ascii_dec a b) as [->|Hne].
      * rewrite IH. split; intros [r Hr]; exists r.
        -- by rewrite Hr.
        -- by injection Hr.
      * split; [done|]. intros [r [= ? _]]. done.
Qed.

(** [includes] is the substring test. *)
Lemma includes_spec s q : includes s q = true ↔ ∃ l r, s = l +:+ q +:+ r.
Proof.
  induction s as [|c s IH]; cbn [includes].
  - rewrite orb_false_r, prefix_spec. split.
    + intros [r Hr]. by exists EmptyString, r.
    + intros (l & r & Hlr). destruct l; [by exists r|discriminate].
  - rewrite orb_true_iff, prefix_spec, IH. split.
    + intros [[r Hr]|(l & r & Hlr)].
      * by exists EmptyString, r.
      * exists (String c l), r. simpl. by rewrite Hlr.
    + intros (l & r & Hlr). destruct l as [|c' l]; simpl in Hlr.
      * left. by exists r.
      * right. injection Hlr as _ Hlr. by exists l, r.
Qed.

(** X18. The list shown keeps, in their order, exactly the documents
    whose lower-cased name contains the trimmed, lower-cased query; the
    tag filter has no part in it. *)
Theorem filtered_matches (allPdfs : list string) (query : string) (tagFilter : TagFilter) :
  filtered allPdfs query tagFilter `sublist_of` allPdfs
  ∧ ∀ n, n ∈ filtered allPdfs query tagFilter
         ↔ n ∈ allPdfs
           ∧ ∃ l r, JsString.toLowerCase n = l +:+ normalizeName query +:+ r.
Proof.
  unfold filtered. fold (normalizeName query).
  assert (∀ l : list string, match tagFilter with tagAll => l | _ => l end = l) as ->
    by (intros; by destruct tagFilter).
  destruct (String.eqb_spec (normalizeName query) EmptyString) as [Hq|Hq]; simpl.
  - split; [done|]. intros n. rewrite Hq. split; [|tauto].
    intros Hn. split; [done|]. by exists EmptyString, (JsString.toLowerCase n).
  - split; [apply sublist_filter|].
    intros n. by rewrite list_elem_of_filter, includes_spec, (comm and).
Qed.

Lemma normalizeName_blank query :
  JsString.isBlank query = true → normalizeName query = EmptyString.
Proof.
  intros Hb. unfold normalizeName, JsString.trim.
  by rewrite JsStringFacts.trimStart_blank.
Qed.

(** X19. A query of white space only shows every document; and two
    queries that differ only in case or in surrounding white space show
    the same list, whatever the tag filters. *)
Theorem filtered_query_insensitive :
  (∀ allPdfs query tagFilter,
     JsString.isBlank query = true → filtered allPdfs query tagFilter = allPdfs)
  ∧ (∀ allPdfs q1 q2 t1 t2,
       JsString.toLowerCase q1 = JsString.toLowerCase q2 →
       filtered allPdfs q1 t1 = filtered allPdfs q2 t2)
  ∧ (∀ allPdfs l query r t1 t2,
       JsString.isBlank l = true → JsString.isBlank r = true →
       filtered allPdfs (l +:+ query +:+ r) t1 = filtered allPdfs query t2).
Proof.
  assert (∀ allPdfs q1 q2 t1 t2,
            normalizeName q1 = normalizeName q2 →
            filtered allPdfs q1 t1 = filtered allPdfs q2 t2) as Hnorm.
  { intros allPdfs q1 q2 t1 t2 Hq. unfold filtered.
    fold (normalizeName q1) (normalizeName q2). rewrite Hq.
    by destruct t1, t2. }
  split_and!.
  - intros allPdfs query tagFilter Hb. unfold filtered. fold (normalizeName query).
    rewrite (normalizeName_blank query Hb). by destruct tagFilter.
  - intros allPdfs q1 q2 t1 t2 Hq. by apply Hnorm, normalizeName_case.
  - intros allPdfs l query r t1 t2 Hl Hr. by apply Hnorm, normalizeName_surrounding.
Qed.

(** ** The library list: building a selection *)

Lemma NoDup_Permutation_remove (l : list string) x :
  NoDup l → x ∈ l → l ≡ₚ x :: filter (λ y, y ≠ x) l.
Proof.
  intros Hnd Hx. apply NoDup_Permutation; [done| |].
  - constructor; [|by apply NoDup_filter].
    rewrite list_elem_of_filter. tauto.
  - intros y. rewrite elem_of_cons, list_elem_of_filter.
    destruct (decide (y = x)) as [->|?]; tauto.
Qed.

Lemma toggled_unfold sel name :
  toggled sel name
  = if decide (name ∈ sel) then filter (λ y, y ≠ name) (firstSeen sel)
    else firstSeen sel ++ [name].
Proof.
  unfold toggled, JsSetOps.has, JsSetOps.delete, JsSet.add. cbv zeta.
  rewrite JsSetFacts.of_list_firstSeen.
  destruct (decide (name ∈ sel)) as [Hin|Hin].
  - rewrite bool_decide_eq_true_2; [done|]. by apply JsSetFacts.elem_of_firstSeen.
  - rewrite bool_decide_eq_false_2 by by rewrite JsSetFacts.elem_of_firstSeen.
    rewrite decide_False; [done|]. by rewrite JsSetFacts.elem_of_firstSeen.
Qed.

Lemma NoDup_toggled sel name : NoDup (toggled sel name).
Proof.
  rewrite toggled_unfold. pose proof (JsSetFacts.NoDup_firstSeen sel) as Hnd.
  destruct (decide (name ∈ sel)) as [Hin|Hin].
  - by apply NoDup_filter.
  - apply NoDup_app. split_and!; [done| |apply NoDup_singleton].
    intros x Hx Hx'%list_elem_of_singleton. subst x.
    apply Hin. by apply JsSetFacts.elem_of_firstSeen.
Qed.

(** X20. Toggling a document gives a selection without duplicates in
    which that document is selected exactly if it was not before, and
    every other document is selected exactly if it was. *)
Theorem toggled_selection (selectedPdfs : list string) (name : string) :
  NoDup (toggled selectedPdfs name)
  ∧ (name ∈ toggled selectedPdfs name ↔ name ∉ selectedPdfs)
  ∧ ∀ x, x ≠ name → (x ∈ toggled selectedPdfs name ↔ x ∈ selectedPdfs).
Proof.
  split; [apply NoDup_toggled|]. rewrite toggled_unfold.
  destruct (decide (name ∈ selectedPdfs)) as [Hin|Hin]; split.
  - rewrite list_elem_of_filter. tauto.
  - intros x Hx. rewrite list_elem_of_filter, JsSetFacts.elem_of_firstSeen. tauto.
  - rewrite elem_of_app, list_elem_of_singleton. tauto.
  - intros x Hx. rewrite elem_of_app, list_elem_of_singleton,
      JsSetFacts.elem_of_firstSeen. tauto.
Qed.

Lemma toggled_twice_selected (sel : list string) (name : string) :
  name ∈ sel →
  toggled (toggled sel name) name = filter (λ y, y ≠ name) (firstSeen sel) ++ [name].
Proof.
  intros Hin. rewrite (toggled_unfold sel name), decide_True by done.
  rewrite toggled_unfold.
  rewrite decide_False by (rewrite list_elem_of_filter; tauto).
  rewrite JsSetFacts.firstSeen_NoDup; [done|].
  apply NoDup_filter, JsSetFacts.NoDup_firstSeen.
Qed.

Lemma toggled_twice_unselected (sel : list string) (name : string) :
  name ∉ sel → toggled (toggled sel name) name = firstSeen sel.
Proof.
  intros Hin. pose proof (JsSetFacts.NoDup_firstSeen sel) as Hnd.
  rewrite (toggled_unfold sel name), decide_False by done.
  rewrite toggled_unfold.
  rewrite decide_True by (apply elem_of_app; right; by left).
  rewrite JsSetFacts.firstSeen_NoDup.
  - rewrite filter_app, filter_cons, filter_nil.
    rewrite decide_False by (intros ?; done). rewrite app_nil_r.
    apply JsSetFacts.filter_ne_notin. by rewrite JsSetFacts.elem_of_firstSeen.
  - apply NoDup_app. split_and!; [done| |apply NoDup_singleton].
    intros x Hx Hx'%list_elem_of_singleton. subst x.
    apply Hin. by apply JsSetFacts.elem_of_firstSeen.
Qed.

Lemma removed_then_appended (l : list string) x :
  NoDup l → x ∈ l → filter (λ y, y ≠ x) l ++ [x] ≡ₚ l.
Proof.
  intros Hnd Hx. rewrite <- Permutation_cons_append. symmetry.
  by apply NoDup_Permutation_remove.
Qed.

(** X21. Toggling the same document twice gives back the original
    selection without its repetitions, up to order; and exactly that
    list, order included, when the document was not selected. *)
Theorem toggled_twice (selectedPdfs : list string) (name : string) :
  toggled (toggled selectedPdfs name) name ≡ₚ firstSeen selectedPdfs
  ∧ (name ∉ selectedPdfs →
     toggled (toggled selectedPdfs name) name = firstSeen selectedPdfs).
Proof.
  split; [|apply toggled_twice_unselected].
  destruct (decide (name ∈ selectedPdfs)) as [Hin|Hin].
  - rewrite toggled_twice_selected by done.
    apply removed_then_appended; [apply JsSetFacts.NoDup_firstSeen|].
    by apply JsSetFacts.elem_of_firstSeen.
  - by rewrite toggled_twice_unselected.
Qed.

Lemma filter_notin_all (acc l : list string) :
  (∀ x, x ∈ l → x ∈ acc) → filter (λ y, y ∉ acc) l = [].
Proof.
  induction l as [|x l IH]; intros Hsub; [done|].
  rewrite filter_cons, decide_False.
  - apply IH. intros y Hy. apply Hsub. by right.
  - intros Hx. apply Hx, Hsub. left.
Qed.

Lemma NoDup_union sel shown : NoDup (union sel shown).
Proof.
  unfold union. rewrite JsSetFacts.of_list_firstSeen. apply JsSetFacts.NoDup_firstSeen.
Qed.

(** X22. Select all gives a selection without duplicates that holds
    exactly the documents selected before and the documents shown; a
    duplicate-free selection stays at the front in its order; and
    selecting all a second time changes nothing. *)
Theorem union_selection (selectedPdfs shown : list string) :
  NoDup (union selectedPdfs shown)
  ∧ (∀ x, x ∈ union selectedPdfs shown ↔ x ∈ selectedPdfs ∨ x ∈ shown)
  ∧ (NoDup selectedPdfs → selectedPdfs `prefix_of` union selectedPdfs shown)
  ∧ union (union selectedPdfs shown) shown = union selectedPdfs shown.
Proof.
  split; [apply NoDup_union|]. unfold union. split_and!.
  - intros x. by rewrite JsSetFacts.of_list_firstSeen, JsSetFacts.elem_of_firstSeen,
      elem_of_app.
  - intros Hnd. rewrite JsSetFacts.of_list_app_NoDup by done. by eexists.
  - rewrite JsSetFacts.of_list_app_NoDup
      by (rewrite JsSetFacts.of_list_firstSeen; apply JsSetFacts.NoDup_firstSeen).
    rewrite filter_notin_all; [by rewrite app_nil_r|].
    intros x Hx. rewrite JsSetFacts.of_list_firstSeen, JsSetFacts.elem_of_firstSeen.
    rewrite JsSetFacts.elem_of_firstSeen in Hx. apply elem_of_app. by right.
Qed.

(** ** The library list: selections made through it *)

Section LibraryFacts.

Variable localeCompare : string → string → comparison.
Variable service : nat → list string → ServiceResult.

(** The three ways through [fetchCombinedFields] up to its [await]:
    cache hit, empty selection, request sent. *)
Lemma fetchCombinedFields_begun_unfold (w : World) :
  fetchCombinedFields_begun localeCompare service w
  = let s := store w in
    let pdfs := selectedPdfs s in
    let sig := selectionSignature localeCompare pdfs in
    match readCache (fieldsCache s) sig with
    | Some found => (Normal None, mkWorld (with_combinedFields found s) (calls w))
    | None =>
        if (length pdfs =? 0)%nat
        then (Normal None, mkWorld (with_combinedFields (Fields []) s) (calls w))
        else
          let settled := service (length (calls w)) pdfs in
          (Normal (Some (AwaitingFields sig settled)),
           mkWorld (with_isLoadingFields true s) (calls w ++ [(pdfs, settled)]))
    end.
Proof.
  destruct w as [s log]. destruct s. cbv zeta.
  unfold fetchCombinedFields_begun, mbind, Action_bind, Zustand.get, Zustand.set,
    sendCombinedFields. simpl.
  destruct (readCache _ _); [done|].
  by destruct (length _ =? 0)%nat.
Qed.

Lemma setSelectedPdfs_begun_unfold (pdfs : list string) (w : World) :
  setSelectedPdfs_begun localeCompare service pdfs w
  = fetchCombinedFields_begun localeCompare service
      (mkWorld (with_selectedPdfs pdfs (store w)) (calls w)).
Proof. done. Qed.

(** What is left of [fetchCombinedFields] after its [await]. *)
Lemma resume_fields_unfold sig settled (w : World) :
  resume (AwaitingFields sig settled) w
  = match settled with
    | inl e => (Throw e, mkWorld (with_isLoadingFields false (store w)) (calls w))
    | inr res =>
        (Normal tt,
         mkWorld (with_isLoadingFields false
                    (with_fieldsCache
                       (<[sig := dedupeFields (fields res)]> (fieldsCache (store w)))
                       (with_combinedFields (Fields (dedupeFields (fields res)))
                          (store w))))
                 (calls w))
    end.
Proof. destruct w as [s log], s, settled; reflexivity. Qed.

Lemma resume_pdfs_unfold settled (w : World) :
  resume (AwaitingPdfs settled) w
  = match settled with
    | inl e => (Throw e, mkWorld (with_isLoadingPdfs false (store w)) (calls w))
    | inr pdfs =>
        (Normal tt,
         mkWorld (with_isLoadingPdfs false (with_allPdfs pdfs (store w))) (calls w))
    end.
Proof. destruct w as [s log], s, settled; reflexivity. Qed.

(** An awaited [fetchCombinedFields] is its part up to the [await]
    followed at once by the rest. *)
Lemma fetchCombinedFields_begun_resume (w : World) :
  fetchCombinedFields localeCompare service w
  = match fetchCombinedFields_begun localeCompare service w with
    | (Normal (Some waiting), w') => resume waiting w'
    | (Normal None, w') => (Normal tt, w')
    | (Throw e, w') => (Throw e, w')
    end.
Proof.
  rewrite fetchCombinedFields_unfold, fetchCombinedFields_begun_unfold. cbv zeta.
  destruct (readCache _ _); [done|].
  destruct (length _ =? 0)%nat; [done|].
  rewrite resume_fields_unfold. destruct w as [s log], s. simpl.
  by destruct (service _ _).
Qed.

(** An awaited [loadPdfs] likewise. *)
Lemma loadPdfs_begun_resume settled (w : World) :
  loadPdfs settled w
  = match loadPdfs_begun settled w with
    | (Normal (Some waiting), w') => resume waiting w'
    | (Normal None, w') => (Normal tt, w')
    | (Throw e, w') => (Throw e, w')
    end.
Proof. destruct w as [s log], s, settled; reflexivity. Qed.

Lemma void_world begun (p : Page) : world (void begun p) = (begun (world p)).2.
Proof. unfold void. by destruct (begun (world p)) as [[[?|]|] ?]. Qed.

Lemma setSelectedPdfs_begun_store pdfs w :
  selectedPdfs (store (setSelectedPdfs_begun localeCompare service pdfs w).2) = pdfs
  ∧ fieldsCache (store (setSelectedPdfs_begun localeCompare service pdfs w).2)
    = fieldsCache (store w).
Proof.
  rewrite setSelectedPdfs_begun_unfold, fetchCombinedFields_begun_unfold. cbv zeta. simpl.
  destruct (readCache _ _); [done|].
  by destruct (length pdfs =? 0)%nat.
Qed.

Lemma resume_selectedPdfs waiting w :
  selectedPdfs (store (resume waiting w).2) = selectedPdfs (store w).
Proof.
  destruct waiting as [sig settled|settled].
  - rewrite resume_fields_unfold. by destruct settled.
  - rewrite resume_pdfs_unfold. by destruct settled.
Qed.

Lemma runPage_snoc evs ev p :
  runPage localeCompare service (evs ++ [ev]) p
  = runUi localeCompare service ev (runPage localeCompare service evs p).
Proof. unfold runPage. by rewrite foldl_snoc. Qed.

(** Every event leaves a duplicate-free selection duplicate-free. *)
Lemma runUi_NoDup (ev : UiEvent) (p : Page) :
  NoDup (selectedPdfs (store (world p))) →
  NoDup (selectedPdfs (store (world (runUi localeCompare service ev p)))).
Proof.
  intros Hp. destruct ev as [settled|name|query tagFilter| |i]; unfold runUi.
  - unfold onMount. cbv zeta.
    destruct (length (allPdfs (store (world p))) =? 0)%nat; [|done].
    by rewrite void_world.
  - unfold onToggle. cbv zeta.
    rewrite void_world, (proj1 (setSelectedPdfs_begun_store _ _)).
    apply NoDup_toggled.
  - unfold onSelectAll. cbv zeta.
    rewrite void_world, (proj1 (setSelectedPdfs_begun_store _ _)).
    apply NoDup_union.
  - unfold onClearAll. rewrite void_world, (proj1 (setSelectedPdfs_begun_store _ _)).
    constructor.
  - unfold onAnswer. destruct (inFlight p !! i) as [waiting|]; [|done].
    simpl. by rewrite resume_selectedPdfs.
Qed.

Lemma runPage_NoDup (evs : list UiEvent) (p : Page) :
  NoDup (selectedPdfs (store (world p))) →
  NoDup (selectedPdfs (store (world (runPage localeCompare service evs p)))).
Proof.
  intros Hp. induction evs as [|ev evs IH] using rev_ind; [done|].
  rewrite runPage_snoc. by apply runUi_NoDup.
Qed.

(** X23. However the list is used (mounting, toggling, select all,
    clear all, in any order and with any answers of the service), the
    selection in the store never holds a document twice. *)
Theorem ui_selection_distinct (evs : list UiEvent) :
  NoDup (selectedPdfs (store (runUis localeCompare service evs initialWorld))).
Proof.
  unfold runUis. induction evs as [|ev evs IH] using rev_ind.
  - constructor.
  - rewrite runPage_snoc. by apply runUi_NoDup.
Qed.

(** X24. For selections made through the list the signature is a
    function of the set of selected documents, when the comparison
    orders these documents strictly: two histories of use that end with
    the same documents selected then end with the same signature. *)
Theorem ui_signature_by_set (evs1 evs2 : list UiEvent) :
  let sel1 := selectedPdfs (store (runUis localeCompare service evs1 initialWorld)) in
  let sel2 := selectedPdfs (store (runUis localeCompare service evs2 initialWorld)) in
  (∀ x, x ∈ sel1 ↔ x ∈ sel2) →
  ordersStrictly localeCompare sel1 →
  selectionSignature localeCompare sel1 = selectionSignature localeCompare sel2.
Proof.
  intros sel1 sel2 Hset Hord.
  apply selectionSignature_Permutation; [done|].
  apply NoDup_Permutation; [| |done]; apply runPage_NoDup; constructor.
Qed.

(** X25. Toggling a document, getting the answer for the selection in
    between, and toggling the document back, starting with nothing
    awaited from a duplicate-free selection whose fields are in the cache
    and whose documents the comparison orders strictly, ends with the
    same documents selected and those cached fields shown, after at most
    one request (the one for the selection in between). *)
Theorem toggle_back_served_from_cache (name : string) (w : World) (cached : list FieldDef) :
  NoDup (selectedPdfs (store w)) →
  ordersStrictly localeCompare (selectedPdfs (store w)) →
  fieldsCache (store w) !! selectionSignature localeCompare (selectedPdfs (store w))
  = Some cached →
  let w2 := runUis localeCompare service [UiToggle name; UiAnswer 0; UiToggle name] w in
  selectedPdfs (store w2) ≡ₚ selectedPdfs (store w)
  ∧ combinedFields (store w2) = Fields cached
  ∧ (length (calls w2) ≤ length (calls w) + 1)%nat.
Proof.
  intros Hnd Hord Hcache. cbv zeta.
  set (sel := selectedPdfs (store w)) in *.
  set (sig := selectionSignature localeCompare sel) in *.
  unfold runUis, runPage. cbn [foldl runUi].
  (* the first toggle *)
  set (p1 := onToggle localeCompare service name (mkPage w [])).
  assert (selectedPdfs (store (world p1)) = toggled sel name
          ∧ fieldsCache (store (world p1)) !! sig = Some cached
          ∧ (length (calls (world p1)) ≤ length (calls w) + 1)%nat
          ∧ ∀ waiting, inFlight p1 !! 0%nat = Some waiting →
              ∃ sig1 settled, waiting = AwaitingFields sig1 settled ∧ sig1 ≠ sig)
    as (Hsel1 & Hcache1 & Hcalls1 & Hwait1).
  { unfold p1, onToggle, void. cbv zeta. cbn [world inFlight store].
    fold sel. rewrite setSelectedPdfs_begun_unfold, fetchCombinedFields_begun_unfold.
    cbv zeta. cbn [store calls selectedPdfs with_selectedPdfs fieldsCache].
    destruct (readCache (fieldsCache (store w))
                (selectionSignature localeCompare (toggled sel name))) as [found|] eqn:Hread.
    { cbn. split_and!; [done|done|lia|]. by intros waiting. }
    destruct (length (toggled sel name) =? 0)%nat.
    { cbn. split_and!; [done|done|lia|]. by intros waiting. }
    cbn. split_and!; [done|done|rewrite length_app; simpl; lia|].
    intros waiting [= <-]. eexists _, _. split; [done|].
    intros Heq. apply readCache_None in Hread as [Hread _].
    fold sig in Hcache. rewrite Heq in Hread. congruence. }
  (* the answer *)
  set (p2 := onAnswer 0 p1).
  assert (selectedPdfs (store (world p2)) = toggled sel name
          ∧ fieldsCache (store (world p2)) !! sig = Some cached
          ∧ calls (world p2) = calls (world p1))
    as (Hsel2 & Hcache2 & Hcalls2).
  { unfold p2, onAnswer. destruct (inFlight p1 !! 0%nat) as [waiting|] eqn:Hw; [|done].
    destruct (Hwait1 waiting eq_refl) as (sig1 & settled & -> & Hne).
    cbn [world]. rewrite resume_fields_unfold.
    destruct settled as [e|res]; cbn; [done|].
    split_and!; [done| |done]. by rewrite lookup_insert_ne. }
  (* the second toggle *)
  unfold onToggle, void. cbv zeta. rewrite Hsel2.
  rewrite setSelectedPdfs_begun_unfold, fetchCombinedFields_begun_unfold.
  cbv zeta. cbn [store calls selectedPdfs with_selectedPdfs fieldsCache].
  assert (sel ≡ₚ toggled (toggled sel name) name) as Hperm.
  { destruct (decide (name ∈ sel)) as [Hin|Hin].
    - rewrite toggled_twice_selected, JsSetFacts.firstSeen_NoDup by done.
      symmetry. by apply removed_then_appended.
    - by rewrite toggled_twice_unselected, JsSetFacts.firstSeen_NoDup. }
  rewrite <- (selectionSignature_Permutation localeCompare _ _ Hord Hperm).
  fold sig. rewrite (readCache_own _ _ _ Hcache2). cbn.
  split_and!; [by symmetry|done|by rewrite Hcalls2].
Qed.

End LibraryFacts.

(** The handlers do not await [setSelectedPdfs]: an answer that arrives
    after the next selection still writes [combinedFields].  Here the
    fields of [a.pdf] are cached and shown; [b.pdf] is toggled on and off
    again before the answer for the selection in between arrives. *)
Lemma late_answer_is_shown :
  let w :=
    runUis codeUnitCompare mockService
      [UiToggle "b.pdf"; UiToggle "b.pdf"; UiAnswer 0]
      (run codeUnitCompare mockService [CallSetSelectedPdfs ["a.pdf"]] initialWorld) in
  selectedPdfs (store w) = ["a.pdf"]
  ∧ combinedFields (store w) = Fields fieldsB
  ∧ fieldsCache (store w) !! "a.pdf" = Some fieldsA.
Proof. vm_compute. done. Qed.

(** ** Instances of the further properties *)

Lemma lookupIn_occ l pdf v :
  lookupIn (occ l) pdf = Some v →
  ∃ z, (pdf, z) ∈ l ∧ v = JsValue.Num (JsNumber.Fin z).
Proof.
  unfold occ, lookupIn. intros Hv. apply elem_of_list_to_map_2 in Hv.
  apply list_elem_of_fmap in Hv as ([k z] & [= -> ->] & Hin). by exists z.
Qed.



Lemma dedupeFields_required_witness :
  mkFieldDef "Name" text (Some true) None None
  ∈ dedupeFields [ mkFieldDef "Name" text (Some false) None None;
                   mkFieldDef "name" number (Some true) None None ]
  ∧ required (mkFieldDef "Name" text (Some true) None None) = Some true.
Proof.
  assert (mkFieldDef "Name" text (Some true) None None
          ∈ dedupeFields [ mkFieldDef "Name" text (Some false) None None;
                           mkFieldDef "name" number (Some true) None None ]) as Hin
    by (vm_compute; left).
  split; [exact Hin|].
  apply (proj2 (dedupeFields_required _ _ Hin)).
  vm_compute. right. by left.
Defined.

Lemma mentions_occ pdf n k r o l :
  mentions pdf (mkFieldDef n k r o (occ l)) → ∃ z, (pdf, z) ∈ l.
Proof.
  intros [v Hv]%mentions_valueIn. change (lookupIn (occ l) pdf = Some v) in Hv.
  apply lookupIn_occ in Hv as (z & Hin & _). by exists z.
Qed.

Lemma dedupeFields_occurrences_order_independent_witness :
  safeCounts
    (contributors (mkFieldDef "Name" text None None (occ [("a.pdf", 3)]))
       [ mkFieldDef "Name" text None None (occ [("a.pdf", 1)]);
         mkFieldDef "name" text None None (occ [("a.pdf", 2)]) ])
  ∧ occurrences (mkFieldDef "Name" text None None (occ [("a.pdf", 3)]))
    = occurrences (mkFieldDef "name" text None None (occ [("a.pdf", 3)])).
Proof.
  assert (safeCounts
            (contributors (mkFieldDef "Name" text None None (occ [("a.pdf", 3)]))
               [ mkFieldDef "Name" text None None (occ [("a.pdf", 1)]);
                 mkFieldDef "name" text None None (occ [("a.pdf", 2)]) ])) as Hsafe.
  { assert (contributors (mkFieldDef "Name" text None None (occ [("a.pdf", 3)]))
              [ mkFieldDef "Name" text None None (occ [("a.pdf", 1)]);
                mkFieldDef "name" text None None (occ [("a.pdf", 2)]) ]
            = [ mkFieldDef "Name" text None None (occ [("a.pdf", 1)]);
                mkFieldDef "name" text None None (occ [("a.pdf", 2)]) ]) as ->
      by (vm_compute; reflexivity).
    intros pdf Hex.
    assert (pdf = "a.pdf") as ->.
    { apply Exists_cons in Hex as [Hm|Hex];
        [|apply Exists_cons in Hex as [Hm|Hex%Exists_nil]; [|done]];
        apply mentions_occ in Hm as [z Hz];
        apply list_elem_of_singleton in Hz; congruence. }
    split_and!.
    - apply not_inherited_decide. vm_compute. reflexivity.
    - apply Forall_forall. intros f Hf v Hv.
      apply elem_of_cons in Hf as [->|Hf]; [|apply list_elem_of_singleton in Hf as ->];
        unfold valueIn in Hv; cbn [occurrences] in Hv;
        apply lookupIn_occ in Hv as (z & _ & ->); by eexists.
    - vm_compute. discriminate. }
  split; [exact Hsafe|].
  apply (dedupeFields_occurrences_order_independent
           [ mkFieldDef "Name" text None None (occ [("a.pdf", 1)]);
             mkFieldDef "name" text None None (occ [("a.pdf", 2)]) ]
           [ mkFieldDef "name" text None None (occ [("a.pdf", 2)]);
             mkFieldDef "Name" text None None (occ [("a.pdf", 1)]) ]).
  - apply Permutation_swap.
  - vm_compute. left.
  - vm_compute. left.
  - reflexivity.
  - exact Hsafe.
Defined.

Lemma dedupeFields_options_distinct_witness :
  NoDup ["US"; "CA"; "MX"]
  ∧ ∀ x, x ∈ ["US"; "CA"; "MX"]
         ↔ ∃ f o', f ∈ group (normalizeName "Country")
                         [ mkFieldDef "Country" text None (Some ["US"; "CA"]) None;
                           mkFieldDef "country" text None (Some ["CA"; "MX"]) None ]
                   ∧ options f = Some o' ∧ x ∈ o'.
Proof.
  apply (dedupeFields_options_distinct
           [ mkFieldDef "Country" text None (Some ["US"; "CA"]) None;
             mkFieldDef "country" text None (Some ["CA"; "MX"]) None ]
           (mkFieldDef "Country" text None (Some ["US"; "CA"; "MX"]) None)).
  - vm_compute. left.
  - reflexivity.
Defined.

Lemma setSelectedPdfs_completed_witness :
  setSelectedPdfs codeUnitCompare mockService ["a.pdf"] initialWorld
  = (Normal tt,
     run codeUnitCompare mockService [CallSetSelectedPdfs ["a.pdf"]] initialWorld)
  ∧ selectedPdfs
      (store (run codeUnitCompare mockService [CallSetSelectedPdfs ["a.pdf"]] initialWorld))
    = ["a.pdf"]
  ∧ combinedFields
      (store (run codeUnitCompare mockService [CallSetSelectedPdfs ["a.pdf"]] initialWorld))
    = Fields fieldsA.
Proof.
  assert (setSelectedPdfs codeUnitCompare mockService ["a.pdf"] initialWorld
          = (Normal tt,
             run codeUnitCompare mockService [CallSetSelectedPdfs ["a.pdf"]] initialWorld))
    as Hrun by (vm_compute; reflexivity).
  split_and!; [exact Hrun| |vm_compute; reflexivity].
  apply (setSelectedPdfs_completed codeUnitCompare mockService ["a.pdf"] initialWorld
           _ Hrun).
Defined.

Lemma setSelectedPdfs_thrown_witness :
  setSelectedPdfs codeUnitCompare failingService ["a.pdf"] initialWorld
  = (Throw noResponse,
     mkWorld (with_isLoadingFields false (with_selectedPdfs ["a.pdf"] initialState))
             [(["a.pdf"], inl noResponse)])
  ∧ ["a.pdf"] ≠ [].
Proof.
  assert (setSelectedPdfs codeUnitCompare failingService ["a.pdf"] initialWorld
          = (Throw noResponse,
             mkWorld (with_isLoadingFields false
                        (with_selectedPdfs ["a.pdf"] initialState))
                     [(["a.pdf"], inl noResponse)])) as Hrun by reflexivity.
  split; [exact Hrun|].
  apply (setSelectedPdfs_thrown codeUnitCompare failingService _ _ _ _ Hrun).
Defined.

Lemma fetchCombinedFields_again_witness :
  fetchCombinedFields codeUnitCompare mockService selectedWorld
  = (Normal tt,
     run codeUnitCompare mockService [CallSetSelectedPdfs ["a.pdf"]] initialWorld)
  ∧ calls (run codeUnitCompare mockService [CallSetSelectedPdfs ["a.pdf"]] initialWorld)
    = [(["a.pdf"], inr (mkResponse fieldsA None))]
  ∧ fetchCombinedFields codeUnitCompare mockService
      (run codeUnitCompare mockService [CallSetSelectedPdfs ["a.pdf"]] initialWorld)
    = (Normal tt,
       run codeUnitCompare mockService [CallSetSelectedPdfs ["a.pdf"]] initialWorld).
Proof.
  assert (fetchCombinedFields codeUnitCompare mockService selectedWorld
          = (Normal tt,
             run codeUnitCompare mockService [CallSetSelectedPdfs ["a.pdf"]] initialWorld))
    as Hrun by (vm_compute; reflexivity).
  split_and!; [exact Hrun|reflexivity|].
  exact (fetchCombinedFields_again codeUnitCompare mockService selectedWorld _ Hrun).
Defined.

Lemma cache_entries_stay_witness :
  fieldsCache
    (store (runOps codeUnitCompare mockService
              [OpCall (CallSetSelectedPdfs ["b.pdf"]); OpUpdateFieldValue "Name" "Ada"]
              (run codeUnitCompare mockService
                 [CallSetSelectedPdfs ["a.pdf"]] initialWorld)))
    !! "a.pdf"
  = Some (dedupeFields fieldsA).
Proof.
  apply (cache_entries_stay codeUnitCompare mockService).
  - repeat constructor.
  - vm_compute. reflexivity.
Defined.

Lemma cache_entries_are_responses_witness :
  ∃ pdfs res,
    (pdfs, inr res)
    ∈ calls (runOps codeUnitCompare mockService
               [OpCall (CallSetSelectedPdfs ["a.pdf"])] initialWorld)
    ∧ pdfs ≠ []
    ∧ "a.pdf" = selectionSignature codeUnitCompare pdfs
    ∧ dedupeFields fieldsA = dedupeFields (fields res).
Proof.
  apply (cache_entries_are_responses codeUnitCompare mockService
           [OpCall (CallSetSelectedPdfs ["a.pdf"])] "a.pdf" (dedupeFields fieldsA)).
  vm_compute. reflexivity.
Defined.

Lemma updateFieldValue_persists_witness :
  fieldValues
    (store (runOps codeUnitCompare failingService
              [OpCall (CallSetSelectedPdfs ["a.pdf"]); OpUpdateFieldValue "Age" "36"]
              (updateFieldValue "Name" "Ada" initialWorld).2))
    !! "Name"
  = Some "Ada".
Proof.
  apply (updateFieldValue_persists codeUnitCompare failingService).
  repeat constructor.
Defined.

Lemma reset_invalidates_cache_witness :
  calls (setSelectedPdfs codeUnitCompare mockService ["a.pdf"]
           (reset (run codeUnitCompare mockService
                     [CallSetSelectedPdfs ["a.pdf"]] initialWorld)).2).2
  = calls (run codeUnitCompare mockService [CallSetSelectedPdfs ["a.pdf"]] initialWorld)
    ++ [(["a.pdf"],
         mockService
           (length (calls (run codeUnitCompare mockService
                             [CallSetSelectedPdfs ["a.pdf"]] initialWorld)))
           ["a.pdf"])].
Proof.
  apply (reset_invalidates_cache codeUnitCompare mockService).
  - discriminate.
  - apply not_inherited_decide. vm_compute. reflexivity.
Defined.

Lemma filtered_query_insensitive_witness :
  filtered ["Tax.pdf"; "lease.pdf"] " tax " tagAll
  = filtered ["Tax.pdf"; "lease.pdf"] "tax" tagHasTag.
Proof.
  exact (proj2 (proj2 filtered_query_insensitive)
           ["Tax.pdf"; "lease.pdf"] " " "tax" " " tagAll tagHasTag eq_refl eq_refl).
Defined.

Lemma toggled_selection_witness :
  "b.pdf" ∈ toggled ["a.pdf"; "b.pdf"] "a.pdf" ↔ "b.pdf" ∈ ["a.pdf"; "b.pdf"].
Proof.
  apply (proj2 (proj2 (toggled_selection ["a.pdf"; "b.pdf"] "a.pdf"))). discriminate.
Defined.

Lemma toggled_twice_witness :
  toggled (toggled ["a.pdf"] "b.pdf") "b.pdf" = firstSeen ["a.pdf"].
Proof.
  apply (proj2 (toggled_twice ["a.pdf"] "b.pdf")).
  intros [H|H]%elem_of_cons; [discriminate|by apply elem_of_nil in H].
Defined.

Lemma union_selection_witness :
  ["b.pdf"] `prefix_of` union ["b.pdf"] ["a.pdf"; "b.pdf"].
Proof.
  apply (proj1 (proj2 (proj2 (union_selection ["b.pdf"] ["a.pdf"; "b.pdf"])))).
  apply NoDup_singleton.
Defined.

Lemma ui_signature_by_set_witness :
  selectionSignature codeUnitCompare
    (selectedPdfs (store (runUis codeUnitCompare mockService
                            [UiToggle "a.pdf"; UiToggle "b.pdf"] initialWorld)))
  = selectionSignature codeUnitCompare
      (selectedPdfs (store (runUis codeUnitCompare mockService
                              [UiToggle "b.pdf"; UiAnswer 0; UiToggle "a.pdf"]
                              initialWorld))).
Proof.
  apply (ui_signature_by_set codeUnitCompare mockService
           [UiToggle "a.pdf"; UiToggle "b.pdf"]
           [UiToggle "b.pdf"; UiAnswer 0; UiToggle "a.pdf"]).
  - intros x.
    change (x ∈ ["a.pdf"; "b.pdf"] ↔ x ∈ ["b.pdf"; "a.pdf"]).
    rewrite !elem_of_cons. tauto.
  - apply codeUnitCompare_ordersStrictly.
Defined.

Lemma toggle_back_served_from_cache_witness :
  fieldsCache
    (store (run codeUnitCompare mockService [CallSetSelectedPdfs ["a.pdf"]] initialWorld))
    !! "a.pdf"
  = Some (dedupeFields fieldsA)
  ∧ combinedFields
      (store (runUis codeUnitCompare mockService
                [UiToggle "b.pdf"; UiAnswer 0; UiToggle "b.pdf"]
                (run codeUnitCompare mockService
                   [CallSetSelectedPdfs ["a.pdf"]] initialWorld)))
    = Fields (dedupeFields fieldsA)
  ∧ calls
      (runUis codeUnitCompare mockService
         [UiToggle "b.pdf"; UiAnswer 0; UiToggle "b.pdf"]
         (run codeUnitCompare mockService [CallSetSelectedPdfs ["a.pdf"]] initialWorld))
    = [ (["a.pdf"], inr (mkResponse fieldsA None));
        (["a.pdf"; "b.pdf"], inr (mkResponse fieldsB None)) ].
Proof.
  assert (fieldsCache
            (store (run codeUnitCompare mockService
                      [CallSetSelectedPdfs ["a.pdf"]] initialWorld))
            !! "a.pdf"
          = Some (dedupeFields fieldsA)) as Hcache by (vm_compute; reflexivity).
  split_and!; [exact Hcache| |vm_compute; reflexivity].
  apply (toggle_back_served_from_cache codeUnitCompare mockService "b.pdf"
           (run codeUnitCompare mockService [CallSetSelectedPdfs ["a.pdf"]] initialWorld)
           (dedupeFields fieldsA)).
  - vm_compute. apply NoDup_singleton.
  - apply codeUnitCompare_ordersStrictly.
  - exact Hcache.
Defined.
